(** * DeFi_Analytics: the real-time synchronisation core of the frontend

    A shallow embedding of
      - the WebSocket store (services/websocket): connection life cycle,
        subscription registry, bounded event buffers and message router;
      - the arbitrage merge of [useArbitrage] (hooks/useArbitrage.js) and of
        [ArbitragePanel] (components/Dashboard/ArbitragePanel);
      - the yield statistics of [useYieldData] (hooks/useYieldData.js);
    followed by the properties the specification states about them.

    The program is JavaScript.  Values are the values JSON can carry plus
    [undefined]; the coercions the program relies on (truthiness, [===],
    property access on [null], [ToNumber], [parseFloat], [+]) are written
    out.  Numbers are kept as exact rationals together with NaN and the two
    infinities: rounding, overflow and the sign of zero are not part of the
    model. *)

From Stdlib Require Import QArith Lqa Ascii String Sorted.
From stdpp Require Import gmap strings list pretty.
Close Scope Q_scope.
#[local] Set Warnings "-clear-no-such-hyp".
Open Scope string_scope.
Open Scope list_scope.
Open Scope nat_scope.

(** ** Numbers *)

Inductive number :=
| NaN
| Inf (negative : bool)
| Fin (q : Q).

Definition Qsign (q : Q) : comparison := (q ?= 0)%Q.

Definition of_nat (n : nat) : number := Fin (inject_Z (Z.of_nat n)).
Definition of_Z (z : Z) : number := Fin (inject_Z z).

Definition is_nan (n : number) : bool :=
  match n with NaN => true | _ => false end.

Definition nneg (a : number) : number :=
  match a with
  | NaN => NaN
  | Inf s => Inf (negb s)
  | Fin q => Fin (Qred (- q))
  end.

(** [a + b] on numbers. *)
Definition nadd (a b : number) : number :=
  match a, b with
  | NaN, _ | _, NaN => NaN
  | Inf s, Inf t => if Bool.eqb s t then Inf s else NaN
  | Inf s, Fin _ | Fin _, Inf s => Inf s
  | Fin x, Fin y => Fin (Qred (x + y))
  end.

(** [a - b] on numbers. *)
Definition nsub (a b : number) : number := nadd a (nneg b).

(** [a / b] on numbers.  A zero divisor is taken as [+0]. *)
Definition ndiv (a b : number) : number :=
  match a, b with
  | NaN, _ | _, NaN => NaN
  | Inf _, Inf _ => NaN
  | Inf s, Fin y => Inf (if Qsign y is Lt then negb s else s)
  | Fin _, Inf _ => Fin 0%Q
  | Fin x, Fin y =>
      match Qsign y with
      | Eq => match Qsign x with Eq => NaN | Lt => Inf true | Gt => Inf false end
      | _ => Fin (Qred (x / y))
      end
  end.

(** [a < b] on numbers; false as soon as one side is NaN. *)
Definition nlt (a b : number) : bool :=
  match a, b with
  | NaN, _ | _, NaN => false
  | Inf s, Inf t => s && negb t
  | Inf s, Fin _ => s
  | Fin _, Inf t => negb t
  | Fin x, Fin y => if (x ?= y)%Q is Lt then true else false
  end.

(** Equality of numbers as [===] sees it: NaN differs from itself. *)
Definition neqb (a b : number) : bool :=
  match a, b with
  | Inf s, Inf t => Bool.eqb s t
  | Fin x, Fin y => Qeq_bool x y
  | _, _ => false
  end.

(** [Math.max a b]. *)
Definition nmax (a b : number) : number :=
  match a, b with
  | NaN, _ | _, NaN => NaN
  | _, _ => if nlt a b then b else a
  end.

(** [Math.max(...xs)]: minus infinity on no argument. *)
Definition Math_max (xs : list number) : number :=
  foldl nmax (Inf true) xs.

(** ** Numeric literals in strings *)

Definition is_digit (c : ascii) : bool :=
  let n := Ascii.N_of_ascii c in (48 <=? n)%N && (n <=? 57)%N.

Definition digit_val (c : ascii) : Z := (Z.of_N (Ascii.N_of_ascii c) - 48)%Z.

(** StrWhiteSpaceChar, as far as one byte goes: TAB, LF, VT, FF, CR, SP. *)
Definition is_space (c : ascii) : bool :=
  let n := Ascii.N_of_ascii c in
  ((9 <=? n)%N && (n <=? 13)%N) || (n =? 32)%N.

Fixpoint skip_spaces (s : string) : string :=
  match s with
  | String c s' => if is_space c then skip_spaces s' else s
  | EmptyString => s
  end.

(** Reads a run of decimal digits: its value on top of [acc], how many
    digits were read, and the rest of the string. *)
Fixpoint scan_digits (s : string) (acc : Z) (n : nat) : Z * nat * string :=
  match s with
  | String c s' =>
      if is_digit c then scan_digits s' (10 * acc + digit_val c)%Z (S n)
      else (acc, n, s)
  | EmptyString => (acc, n, s)
  end.

(** ExponentPart, when a complete one starts [s]; otherwise nothing is
    consumed. *)
Definition scan_exponent (s : string) : Z * string :=
  match s with
  | String c s1 =>
      if (c =? "e")%char || (c =? "E")%char then
        let '(neg, s2) :=
          match s1 with
          | String "-" r => (true, r)
          | String "+" r => (false, r)
          | _ => (false, s1)
          end in
        let '(e, k, s3) := scan_digits s2 0%Z O in
        match k with
        | O => (0%Z, s)
        | _ => (if neg then (- e)%Z else e, s3)
        end
      else (0%Z, s)
  | EmptyString => (0%Z, s)
  end.

Fixpoint drop_chars (n : nat) (s : string) : string :=
  match n, s with
  | S n', String _ s' => drop_chars n' s'
  | _, _ => s
  end.

(** The longest prefix of [s] that is a StrUnsignedDecimalLiteral. *)
Definition scan_unsigned (s : string) : option (number * string) :=
  if String.prefix "Infinity" s then Some (Inf false, drop_chars 8 s)
  else
    let '(i, ni, s1) := scan_digits s 0%Z O in
    let '(f, nf, s2) :=
      match s1 with
      | String "." r => scan_digits r i O
      | _ => (i, O, s1)
      end in
    let dotted := match s1 with String "." _ => true | _ => false end in
    match ni, nf with
    | O, O => None
    | _, _ =>
        (* "5." is a literal as well: the dot is consumed once a digit
           stands before it *)
        let s2' := if dotted then s2 else s1 in
        let '(e, s3) := scan_exponent s2' in
        Some (Fin (Qred (inject_Z f * Qpower 10 (e - Z.of_nat nf))%Q), s3)
    end.

(** The longest prefix that is a StrDecimalLiteral (a sign may lead). *)
Definition scan_decimal (s : string) : option (number * string) :=
  match s with
  | String "-" r =>
      match scan_unsigned r with
      | Some (n, rest) => Some (nneg n, rest)
      | None => None
      end
  | String "+" r => scan_unsigned r
  | _ => scan_unsigned s
  end.

(** [parseFloat] on a string. *)
Definition parse_float (s : string) : number :=
  match scan_decimal (skip_spaces s) with
  | Some (n, _) => n
  | None => NaN
  end.

Definition all_spaces (s : string) : bool :=
  match skip_spaces s with EmptyString => true | _ => false end.

Definition radix_digit (radix : N) (c : ascii) : option Z :=
  let n := Ascii.N_of_ascii c in
  let d :=
    if (48 <=? n)%N && (n <=? 57)%N then Some (n - 48)%N
    else if (97 <=? n)%N && (n <=? 102)%N then Some (n - 87)%N
    else if (65 <=? n)%N && (n <=? 70)%N then Some (n - 55)%N
    else None in
  match d with
  | Some d => if (d <? radix)%N then Some (Z.of_N d) else None
  | None => None
  end.

Fixpoint scan_radix (radix : N) (s : string) (acc : Z) (n : nat)
  : Z * nat * string :=
  match s with
  | String c s' =>
      match radix_digit radix c with
      | Some d => scan_radix radix s' (Z.of_N radix * acc + d)%Z (S n)
      | None => (acc, n, s)
      end
  | EmptyString => (acc, n, s)
  end.

(** StringToNumber: the whole string, white space trimmed, has to be a
    numeric literal; the empty string is 0. *)
Definition string_to_number (s : string) : number :=
  let t := skip_spaces s in
  let radix_literal (radix : N) (r : string) :=
    let '(v, k, rest) := scan_radix radix r 0%Z O in
    match k with
    | O => NaN
    | _ => if all_spaces rest then of_Z v else NaN
    end in
  let decimal_literal :=
    match scan_decimal t with
    | Some (n, rest) => if all_spaces rest then n else NaN
    | None => NaN
    end in
  match t with
  | EmptyString => Fin 0%Q
  | String "0" (String "x" r) | String "0" (String "X" r) => radix_literal 16%N r
  | String "0" (String "o" r) | String "0" (String "O" r) => radix_literal 8%N r
  | String "0" (String "b" r) | String "0" (String "B" r) => radix_literal 2%N r
  | _ => decimal_literal
  end.

(** ** Values *)

(** What JSON can carry, and [undefined]. *)
#[warnings="-register-all"]
Inductive value :=
| VUndefined
| VNull
| VBool (b : bool)
| VNum (n : number)
| VStr (s : string)
| VArr (elems : list value)
| VObj (props : list (string * value)).

(** The exceptions the program can meet. *)
Inductive exn := SyntaxError | TypeError.

Inductive result (A : Type) :=
| Ok (a : A)
| Throw (e : exn).
Arguments Ok {A} a.
Arguments Throw {A} e.

#[export] Instance result_ret : MRet result := @Ok.
#[export] Instance result_bind : MBind result := λ A B f r,
  match r with Ok a => f a | Throw e => Throw e end.

(** [try { body } catch (e) { handler }] *)
Definition try_catch {A} (body : result A) (handler : exn → A) : A :=
  match body with Ok a => a | Throw e => handler e end.

(** Own properties of an object literal, first binding of a key. *)
Fixpoint assoc (k : string) (props : list (string * value)) : option value :=
  match props with
  | [] => None
  | (k', v) :: rest => if String.eqb k k' then Some v else assoc k rest
  end.

(** [o[k] = v] on the own properties: overwrite in place, or append. *)
Fixpoint set_prop (k : string) (v : value) (props : list (string * value))
  : list (string * value) :=
  match props with
  | [] => [(k, v)]
  | (k', v') :: rest =>
      if String.eqb k k' then (k, v) :: rest else (k', v') :: set_prop k v rest
  end.

(** [v.k].  Reading a property of [undefined] or [null] is a TypeError; a
    primitive or an array has none of the properties the program reads (not
    one of them is an inherited member), so the read gives [undefined]. *)
Definition get (v : value) (k : string) : result value :=
  match v with
  | VUndefined | VNull => Throw TypeError
  | VObj props => Ok (default VUndefined (assoc k props))
  | _ => Ok VUndefined
  end.

(** ToBoolean. *)
Definition truthy (v : value) : bool :=
  match v with
  | VUndefined | VNull => false
  | VBool b => b
  | VNum (Fin q) => negb (Qeq_bool q 0)
  | VNum NaN => false
  | VNum (Inf _) => true
  | VStr s => negb (String.eqb s EmptyString)
  | VArr _ | VObj _ => true
  end.

(** [a === b].  Objects and arrays are compared by reference; the ones the
    program compares were decoded one by one and are never the same
    object. *)
Definition strict_equal (a b : value) : bool :=
  match a, b with
  | VUndefined, VUndefined | VNull, VNull => true
  | VBool x, VBool y => Bool.eqb x y
  | VNum x, VNum y => neqb x y
  | VStr x, VStr y => String.eqb x y
  | _, _ => false
  end.

(** ** An instance of [JSON.parse]

    The program calls the host's [JSON.parse]; the definitions below take it
    as a parameter.  This instance is a recursive-descent reader of the JSON
    grammar, used where a concrete text has to be decoded.  Strings are byte
    strings: a [\u] escape is stored in UTF-8, and an escaped surrogate is
    not accepted. *)

Definition is_json_ws (c : ascii) : bool :=
  let n := Ascii.N_of_ascii c in
  (n =? 32)%N || (n =? 9)%N || (n =? 10)%N || (n =? 13)%N.

Fixpoint skip_json_ws (s : string) : string :=
  match s with
  | String c s' => if is_json_ws c then skip_json_ws s' else s
  | EmptyString => s
  end.

Definition json_number (s : string) : option (number * string) :=
  let '(neg, s1) :=
    match s with String "-" r => (true, r) | _ => (false, s) end in
  let '(i, ni, s2) := scan_digits s1 0%Z O in
  let leading_zero :=
    match s1 with String "0" _ => Nat.ltb 1 ni | _ => false end in
  match ni with
  | O => None
  | _ =>
      if leading_zero then None else
      let frac :=
        match s2 with
        | String "." r =>
            let '(f, nf, s3) := scan_digits r i O in
            match nf with O => None | _ => Some (f, nf, s3) end
        | _ => Some (i, O, s2)
        end in
      match frac with
      | None => None
      | Some (f, nf, s3) =>
          let expo :=
            match s3 with
            | String c r =>
                if (c =? "e")%char || (c =? "E")%char then
                  let '(eneg, r1) :=
                    match r with
                    | String "-" r' => (true, r')
                    | String "+" r' => (false, r')
                    | _ => (false, r)
                    end in
                  let '(e, ne, r2) := scan_digits r1 0%Z O in
                  match ne with
                  | O => None
                  | _ => Some (if eneg then (- e)%Z else e, r2)
                  end
                else Some (0%Z, s3)
            | EmptyString => Some (0%Z, s3)
            end in
          match expo with
          | None => None
          | Some (e, rest) =>
              let m := (inject_Z f * Qpower 10 (e - Z.of_nat nf))%Q in
              Some (Fin (Qred (if neg then (- m)%Q else m)), rest)
          end
      end
  end.

Definition byte (n : N) : ascii := Ascii.ascii_of_N n.

(** The double quote and the backslash. *)
Definition quote : ascii := byte 34.
Definition backslash : ascii := byte 92.

(** JSON texts are written with an apostrophe where the double quote
    stands. *)
Fixpoint json (s : string) : string :=
  match s with
  | EmptyString => EmptyString
  | String c rest => String (if (c =? "'")%char then quote else c) (json rest)
  end.

(** UTF-8 of a code point of the basic plane outside the surrogates. *)
Definition utf8 (cp : N) : option string :=
  if (cp <? 128)%N then Some (String (byte cp) EmptyString)
  else if (cp <? 2048)%N then
    Some (String (byte (192 + cp / 64)) (String (byte (128 + cp mod 64)) EmptyString))
  else if (55296 <=? cp)%N && (cp <=? 57343)%N then None
  else
    Some (String (byte (224 + cp / 4096))
           (String (byte (128 + (cp / 64) mod 64))
             (String (byte (128 + cp mod 64)) EmptyString))).

Definition hex4 (s : string) : option (N * string) :=
  match s with
  | String a (String b (String c (String d rest))) =>
      match radix_digit 16 a, radix_digit 16 b, radix_digit 16 c, radix_digit 16 d with
      | Some a, Some b, Some c, Some d =>
          Some (Z.to_N (((a * 16 + b) * 16 + c) * 16 + d), rest)
      | _, _, _, _ => None
      end
  | _ => None
  end.

(** The characters of a string literal after its opening quote. *)
Fixpoint json_chars (fuel : nat) (s : string) : option (string * string) :=
  match fuel with
  | O => None
  | S fuel =>
      match s with
      | EmptyString => None
      | String c rest =>
          if (c =? quote)%char then Some (EmptyString, rest)
          else if (c =? backslash)%char then
            match rest with
            | EmptyString => None
            | String e rest =>
                let simple (c : ascii) :=
                  '(t, rest') ← json_chars fuel rest; Some (String c t, rest') in
                if (e =? quote)%char then simple quote
                else if (e =? backslash)%char then simple backslash
                else if (e =? "/")%char then simple "/"%char
                else if (e =? "b")%char then simple (byte 8)
                else if (e =? "f")%char then simple (byte 12)
                else if (e =? "n")%char then simple (byte 10)
                else if (e =? "r")%char then simple (byte 13)
                else if (e =? "t")%char then simple (byte 9)
                else if (e =? "u")%char then
                  '(cp, rest1) ← hex4 rest;
                  u ← utf8 cp;
                  '(t, rest') ← json_chars fuel rest1;
                  Some (u +:+ t, rest')
                else None
            end
          else if (Ascii.N_of_ascii c <? 32)%N then None
          else '(t, rest') ← json_chars fuel rest; Some (String c t, rest')
      end
  end.

Definition json_string (s : string) : option (string * string) :=
  json_chars (S (String.length s)) s.

Fixpoint json_value (fuel : nat) (s : string) : option (value * string) :=
  match fuel with
  | O => None
  | S fuel =>
      match skip_json_ws s with
      | String "{" r =>
          match skip_json_ws r with
          | String "}" rest => Some (VObj [], rest)
          | r' => json_members fuel r' []
          end
      | String "[" r =>
          match skip_json_ws r with
          | String "]" rest => Some (VArr [], rest)
          | r' => json_elements fuel r' []
          end
      | EmptyString => None
      | String c r as s' =>
          if (c =? quote)%char then
            '(t, rest) ← json_string r; Some (VStr t, rest)
          else if String.prefix "true" s' then Some (VBool true, drop_chars 4 s')
          else if String.prefix "false" s' then Some (VBool false, drop_chars 5 s')
          else if String.prefix "null" s' then Some (VNull, drop_chars 4 s')
          else '(n, rest) ← json_number s'; Some (VNum n, rest)
      end
  end
with json_members (fuel : nat) (s : string) (acc : list (string * value))
  : option (value * string) :=
  match fuel with
  | O => None
  | S fuel =>
      match skip_json_ws s with
      | String c r =>
          if (c =? quote)%char then
            '(k, r1) ← json_string r;
            match skip_json_ws r1 with
            | String ":" r2 =>
                '(v, r3) ← json_value fuel r2;
                let acc' := set_prop k v acc in
                match skip_json_ws r3 with
                | String "," r4 => json_members fuel r4 acc'
                | String "}" rest => Some (VObj acc', rest)
                | _ => None
                end
            | _ => None
            end
          else None
      | EmptyString => None
      end
  end
with json_elements (fuel : nat) (s : string) (acc : list value)
  : option (value * string) :=
  match fuel with
  | O => None
  | S fuel =>
      '(v, r1) ← json_value fuel s;
      match skip_json_ws r1 with
      | String "," r2 => json_elements fuel r2 (acc ++ [v])
      | String "]" rest => Some (VArr (acc ++ [v]), rest)
      | _ => None
      end
  end.

(** [JSON.parse text]: [None] stands for the SyntaxError. *)
Definition json_parse (text : string) : option value :=
  match json_value (S (String.length text)) text with
  | Some (v, rest) =>
      match skip_json_ws rest with EmptyString => Some v | _ => None end
  | None => None
  end.

(** ** An instance of Number::toString

    Formatting a number is the host's as well, and the second parameter of
    the definitions below.  This instance writes positional notation: the
    integer part, then up to twenty decimal places. *)

Fixpoint frac_digits (fuel : nat) (num den : Z) : string :=
  match fuel with
  | O => EmptyString
  | S fuel =>
      if (num =? 0)%Z then EmptyString
      else pretty (10 * num / den)%Z +:+ frac_digits fuel (10 * num mod den)%Z den
  end.

Definition Number_toString (n : number) : string :=
  match n with
  | NaN => "NaN"
  | Inf s => if s then "-Infinity" else "Infinity"
  | Fin q =>
      let a := Z.abs (Qnum q) in
      let d := Z.pos (Qden q) in
      (if (Qnum q <? 0)%Z then "-" else EmptyString)
      +:+ pretty (a / d)%Z
      +:+ (if (a mod d =? 0)%Z then EmptyString else "." +:+ frac_digits 20 (a mod d)%Z d)
  end.

(** ** Data of the yield statistics *)

(** One entry of [byProtocol] or [byChain].  While the records are being
    added up [avgApy] holds the running [+=] of the [apy] fields, whatever
    [+] made of them; the closing pass divides it by [count]. *)
Module Group.
Record t := mk { count : nat; totalTvl : number; avgApy : value }.
End Group.

(** The [stats] object of [useYieldData].  The rollups are objects used as
    maps from names to groups. *)
Module Stats.
Record t := mk {
  count : nat;
  avgApy : number;
  maxApy : number;
  totalTvl : number;
  byProtocol : gmap string Group.t;
  byChain : gmap string Group.t
}.
End Stats.

(** The [stats] object of [useArbitrage]. *)
Module ArbStats.
Record t := mk {
  count : nat;
  avgProfit : number;
  maxProfit : number;
  totalVolume : number
}.
End ArbStats.

(** The state of [PriceChart]: the points drawn, oldest first, and the live
    price ([null] until an update sets it). *)
Module Chart.
Record point := mk_point { time : number; price : number; volume : number }.
Record t := mk { chartData : list point; livePrice : value }.
End Chart.

(** ** Data of the WebSocket store *)

Inductive ReadyState := CONNECTING | OPEN | CLOSING | CLOSED.

(** What the store sends: the object handed to [JSON.stringify]. *)
Inductive Request :=
| Subscribe (channels : list string)
| Unsubscribe (channels : list string)
| Ping.

(** A [WebSocket] object: its state and the frames sent on it, oldest
    first. *)
Record Socket := { readyState : ReadyState; sent : list Request }.

(** The zustand state.  [ws] is the index of a socket, [None] for [null];
    [subscriptions] is a [Set] of channel names, kept as the list of its
    members in insertion order. *)
Record Store := {
  ws : option nat;
  connected : bool;
  priceUpdates : list value;
  arbitrageAlerts : list value;
  yieldUpdates : list value;
  subscriptions : list string
}.

(** The toasts of react-hot-toast the store raises. *)
Inductive Toast :=
| Toast_connected            (* success: Connected to real-time data stream *)
| Toast_disconnected         (* error: Disconnected from data stream *)
| Toast_connection_error     (* error: WebSocket connection error *)
| Toast_new_arbitrage (token_symbol : value) (profit_percent : number).
                             (* success, 6000 ms: New arbitrage: ... *)

(** A pending [setTimeout(() => get().connect(), delay)]. *)
Inductive Timer := Reconnect (delay_ms : N).

(** The store together with what it acts on: every socket created so far,
    the pending timers and the toasts raised, oldest first. *)
Record World := {
  store : Store;
  sockets : list Socket;
  timers : list Timer;
  toasts : list Toast
}.

Definition initial_store : Store :=
  {| ws := None; connected := false; priceUpdates := []; arbitrageAlerts := [];
     yieldUpdates := []; subscriptions := [] |}.

Definition initial_world : World :=
  {| store := initial_store; sockets := []; timers := []; toasts := [] |}.

(** What happens to the store: calls of its actions, and the events the
    browser delivers. *)
Inductive Event :=
| Call_connect
| Call_disconnect
| Call_subscribe (channels : list string)
| Call_unsubscribe (channels : list string)
| Call_sendPing
| Ws_open (h : nat)
| Ws_close (h : nat)
| Ws_error (h : nat)
| Ws_message (h : nat) (data : string)
| Timer_fires (i : nat)
| Heartbeat_tick.

Section Program.

(** The host's [JSON.parse] ([None] stands for its SyntaxError) and
    Number::toString. *)
Variable JSON_parse : string → option value.
Variable number_to_string : number → string.

(** ** Coercions *)

Fixpoint join_comma (parts : list string) : string :=
  match parts with
  | [] => EmptyString
  | [p] => p
  | p :: rest => p +:+ "," +:+ join_comma rest
  end.

(** ToString.  An array is joined ([undefined] and [null] elements leave an
    empty place); a plain object prints as ["[object Object]"]. *)
Fixpoint to_string (v : value) : string :=
  match v with
  | VUndefined => "undefined"
  | VNull => "null"
  | VBool b => if b then "true" else "false"
  | VNum n => number_to_string n
  | VStr s => s
  | VArr elems =>
      join_comma
        (map (λ e, match e with VUndefined | VNull => EmptyString | _ => to_string e end)
           elems)
  | VObj _ => "[object Object]"
  end.

(** ToPrimitive. *)
Definition to_primitive (v : value) : value :=
  match v with
  | VArr _ | VObj _ => VStr (to_string v)
  | _ => v
  end.

(** ToNumber. *)
Definition to_number (v : value) : number :=
  match v with
  | VUndefined => NaN
  | VNull => Fin 0%Q
  | VBool b => if b then Fin 1%Q else Fin 0%Q
  | VNum n => n
  | VStr s => string_to_number s
  | VArr _ | VObj _ => string_to_number (to_string v)
  end.

(** [a - b] *)
Definition js_sub (a b : value) : number := nsub (to_number a) (to_number b).

(** [a + b]: concatenation as soon as one side is a string. *)
Definition js_add (a b : value) : value :=
  let pa := to_primitive a in
  let pb := to_primitive b in
  match pa, pb with
  | VStr _, _ | _, VStr _ => VStr (to_string pa +:+ to_string pb)
  | _, _ => VNum (nadd (to_number pa) (to_number pb))
  end.

(** [a / b] *)
Definition js_div (a b : value) : number := ndiv (to_number a) (to_number b).

(** [v > n] against a number [n]. *)
Definition js_gt_number (v : value) (n : number) : bool := nlt n (to_number v).

(** [parseFloat(v)]: the argument goes through ToString; a number comes back
    as it is. *)
Definition parseFloat (v : value) : number :=
  match v with
  | VNum n => n
  | _ => parse_float (to_string v)
  end.

Definition JSON_parse_result (text : string) : result value :=
  match JSON_parse text with
  | Some v => Ok v
  | None => Throw SyntaxError
  end.

(** ** Array methods *)

(** [xs.map(f)] with a callback that can throw. *)
Fixpoint map_result {A B} (f : A → result B) (xs : list A) : result (list B) :=
  match xs with
  | [] => Ok []
  | x :: rest => y ← f x; ys ← map_result f rest; mret (y :: ys)
  end.

(** [xs.find(p)] *)
Fixpoint find (p : value → result bool) (xs : list value) : result value :=
  match xs with
  | [] => Ok VUndefined
  | x :: rest => b ← p x; if b : bool then Ok x else find p rest
  end.

(** [xs.reduce(f, init)] *)
Fixpoint reduce {A} (f : A → value → result A) (xs : list value) (init : A)
  : result A :=
  match xs with
  | [] => Ok init
  | x :: rest => acc ← f init x; reduce f rest acc
  end.

(** SortCompare of [Array.prototype.sort], as the question "does [x] go
    after [y]": [undefined] goes last without the comparator being asked,
    and a NaN from the comparator counts as 0. *)
Definition SortCompare (comparefn : value → value → result number)
    (x y : value) : result bool :=
  match x, y with
  | VUndefined, VUndefined => Ok false
  | VUndefined, _ => Ok true
  | _, VUndefined => Ok false
  | _, _ => v ← comparefn x y; mret (nlt (Fin 0%Q) v)
  end.

Fixpoint sort_insert (comparefn : value → value → result number)
    (x : value) (sorted : list value) : result (list value) :=
  match sorted with
  | [] => Ok [x]
  | y :: rest =>
      after ← SortCompare comparefn x y;
      if after : bool then r ← sort_insert comparefn x rest; mret (y :: r)
      else Ok (x :: sorted)
  end.

(** [xs.sort(comparefn)].  The sort is stable, and for a comparator that is
    a consistent ordering every stable sort returns the same array; it is
    computed here by insertion.  (Where the comparator is not consistent the
    language leaves the order to the engine.) *)
Fixpoint sort (comparefn : value → value → result number) (xs : list value)
  : result (list value) :=
  match xs with
  | [] => Ok []
  | x :: rest => sorted ← sort comparefn rest; sort_insert comparefn x sorted
  end.

(** ** hooks/useArbitrage.js and ArbitragePanel: the merge *)

(** [o => o.opportunity_id === opp.opportunity_id] *)
Definition same_opportunity (opp o : value) : result bool :=
  a ← get o "opportunity_id";
  b ← get opp "opportunity_id";
  mret (strict_equal a b).

(** The reducer: [if (!acc.find(...)) acc.push(opp); return acc]. *)
Definition dedup_step (acc : list value) (opp : value) : result (list value) :=
  found ← find (same_opportunity opp) acc;
  mret (if negb (truthy found) then acc ++ [opp] else acc).

(** [(a, b) => b.profit_percent - a.profit_percent] *)
Definition by_profit_desc (a b : value) : result number :=
  pb ← get b "profit_percent";
  pa ← get a "profit_percent";
  mret (js_sub pb pa).

(** The map callback of the hook:
    [try { return typeof alert === 'string' ? JSON.parse(alert) : alert }
     catch (e) { return null }]. *)
Definition decode_alert (alert : value) : value :=
  try_catch
    (match alert with
     | VStr text => JSON_parse_result text
     | _ => Ok alert
     end)
    (λ _, VNull).

(** The [opportunities] memo of [useArbitrage]; [data] is [None] while no
    response has arrived ([data || []]). *)
Definition useArbitrage_opportunities
    (wsAlerts : list value) (data : option (list value)) : result (list value) :=
  let wsOpps := List.filter truthy (map decode_alert wsAlerts) in
  let apiOpps := default [] data in
  let merged := wsOpps ++ apiOpps in
  unique ← reduce dedup_step merged [];
  sort by_profit_desc unique.

(** The [allOpportunities] memo of [ArbitragePanel]: the same merge, with
    the bare [JSON.parse] and no filter. *)
Definition ArbitragePanel_allOpportunities
    (arbitrageAlerts : list value) (opportunities : option (list value))
  : result (list value) :=
  wsOpps ← map_result
             (λ alert, match alert with
                       | VStr text => JSON_parse_result text
                       | _ => Ok alert
                       end)
             arbitrageAlerts;
  let apiOpps := default [] opportunities in
  let merged := wsOpps ++ apiOpps in
  unique ← reduce dedup_step merged [];
  sort by_profit_desc unique.

(** ** hooks/useYieldData.js: the statistics *)

Definition empty_group : Group.t :=
  {| Group.count := 0; Group.totalTvl := Fin 0%Q; Group.avgApy := VNum (Fin 0%Q) |}.

(** The functions every object literal inherits from [Object.prototype];
    beside them it inherits the accessor [__proto__], which gives
    [Object.prototype] itself. *)
Definition Object_prototype_functions : list string :=
  ["constructor"; "hasOwnProperty"; "isPrototypeOf"; "propertyIsEnumerable";
   "toLocaleString"; "toString"; "valueOf"; "__defineGetter__";
   "__defineSetter__"; "__lookupGetter__"; "__lookupSetter__"].

(** [g.count++; g.totalTvl += parseFloat(opp.tvl); g.avgApy += opp.apy] on a
    group [g] of a rollup. *)
Definition add_record (g : Group.t) (tvl apy : value) : Group.t :=
  {| Group.count := S (Group.count g);
     Group.totalTvl := nadd (Group.totalTvl g) (parseFloat tvl);
     Group.avgApy := js_add (Group.avgApy g) apy |}.

(** The body of the [forEach] for one rollup:
    [if (!groups[key]) groups[key] = {count: 0, totalTvl: 0, avgApy: 0};
     groups[key].count++; groups[key].totalTvl += parseFloat(opp.tvl);
     groups[key].avgApy += opp.apy].
    [groups] holds the own entries of the object literal.  [groups[key]]
    finds an own entry or else what the literal inherits: [Object.prototype]
    itself under [__proto__], a built-in function under the names of
    [Object_prototype_functions], and under another name what was written
    onto [Object.prototype] before.  What is found there and is truthy
    keeps the group from being made, and the three updates go to it:
    - on [Object.prototype] they leave [count] and [totalTvl] NaN (falsy,
      so a later group of that name is made all the same) and add [apy]
      into its [avgApy], which is carried along as [inherited_avgApy];
    - on a built-in function they change that function and nothing of the
      rollups;
    - on a primitive, that is an [avgApy] left on [Object.prototype] and
      found under the name [avgApy], the first update throws a TypeError,
      the module being strict code. *)
Definition tally (inherited_avgApy : value) (groups : gmap string Group.t)
    (key : string) (tvl apy : value) : result (value * gmap string Group.t) :=
  match groups !! key with
  | Some g => Ok (inherited_avgApy, <[key := add_record g tvl apy]> groups)
  | None =>
      if String.eqb key "__proto__" then
        Ok (js_add inherited_avgApy apy, groups)
      else if existsb (String.eqb key) Object_prototype_functions then
        Ok (inherited_avgApy, groups)
      else if String.eqb key "avgApy" && truthy inherited_avgApy then
        Throw TypeError
      else
        Ok (inherited_avgApy, <[key := add_record empty_group tvl apy]> groups)
  end.

(** The callback of the [forEach]: the rollup by protocol, then the rollup
    by chain; both object literals inherit from the one [Object.prototype]. *)
Definition tally_opportunity
    (acc : value * gmap string Group.t * gmap string Group.t) (opp : value)
  : result (value * gmap string Group.t * gmap string Group.t) :=
  let '(inherited_avgApy, byProtocol, byChain) := acc in
  protocol_name ← get opp "protocol_name";
  tvl ← get opp "tvl";
  apy ← get opp "apy";
  '(inherited_avgApy, byProtocol) ←
    tally inherited_avgApy byProtocol (to_string protocol_name) tvl apy;
  chain ← get opp "chain";
  '(inherited_avgApy, byChain) ←
    tally inherited_avgApy byChain (to_string chain) tvl apy;
  mret (inherited_avgApy, byProtocol, byChain).

(** [groups[key].avgApy /= groups[key].count], for every key. *)
Definition average (g : Group.t) : Group.t :=
  {| Group.count := Group.count g;
     Group.totalTvl := Group.totalTvl g;
     Group.avgApy := VNum (js_div (Group.avgApy g) (VNum (of_nat (Group.count g)))) |}.

(** The [stats] memo of [useYieldData] over [opportunities = data || []],
    run where nothing was written onto [Object.prototype] yet. *)
Definition useYieldData_stats (data : option (list value)) : result Stats.t :=
  let opportunities := default [] data in
  match opportunities with
  | [] =>
      Ok {| Stats.count := 0; Stats.avgApy := Fin 0%Q; Stats.maxApy := Fin 0%Q;
            Stats.totalTvl := Fin 0%Q; Stats.byProtocol := ∅; Stats.byChain := ∅ |}
  | _ =>
      '(_, byProtocol, byChain) ←
        reduce tally_opportunity opportunities (VUndefined, ∅, ∅);
      let byProtocol := average <$> byProtocol in
      let byChain := average <$> byChain in
      sumApy ← reduce (λ sum o, apy ← get o "apy"; mret (js_add sum apy))
                 opportunities (VNum (Fin 0%Q));
      apys ← map_result (λ o, get o "apy") opportunities;
      sumTvl ← reduce (λ sum o, tvl ← get o "tvl"; mret (nadd sum (parseFloat tvl)))
                 opportunities (Fin 0%Q);
      mret {| Stats.count := length opportunities;
              Stats.avgApy := js_div sumApy (VNum (of_nat (length opportunities)));
              Stats.maxApy := Math_max (map to_number apys);
              Stats.totalTvl := sumTvl;
              Stats.byProtocol := byProtocol;
              Stats.byChain := byChain |}
  end.

(** ** services/websocket: the store *)

(** [set({ ... })] merges the given fields into the state. *)
Definition set_ws (h : option nat) (s : Store) : Store :=
  {| ws := h; connected := connected s; priceUpdates := priceUpdates s;
     arbitrageAlerts := arbitrageAlerts s; yieldUpdates := yieldUpdates s;
     subscriptions := subscriptions s |}.

Definition set_connected (c : bool) (s : Store) : Store :=
  {| ws := ws s; connected := c; priceUpdates := priceUpdates s;
     arbitrageAlerts := arbitrageAlerts s; yieldUpdates := yieldUpdates s;
     subscriptions := subscriptions s |}.

Definition set_priceUpdates (f : list value → list value) (s : Store) : Store :=
  {| ws := ws s; connected := connected s; priceUpdates := f (priceUpdates s);
     arbitrageAlerts := arbitrageAlerts s; yieldUpdates := yieldUpdates s;
     subscriptions := subscriptions s |}.

Definition set_arbitrageAlerts (f : list value → list value) (s : Store) : Store :=
  {| ws := ws s; connected := connected s; priceUpdates := priceUpdates s;
     arbitrageAlerts := f (arbitrageAlerts s); yieldUpdates := yieldUpdates s;
     subscriptions := subscriptions s |}.

Definition set_yieldUpdates (f : list value → list value) (s : Store) : Store :=
  {| ws := ws s; connected := connected s; priceUpdates := priceUpdates s;
     arbitrageAlerts := arbitrageAlerts s; yieldUpdates := f (yieldUpdates s);
     subscriptions := subscriptions s |}.

Definition set_subscriptions (subs : list string) (s : Store) : Store :=
  {| ws := ws s; connected := connected s; priceUpdates := priceUpdates s;
     arbitrageAlerts := arbitrageAlerts s; yieldUpdates := yieldUpdates s;
     subscriptions := subs |}.

Definition set (f : Store → Store) (w : World) : World :=
  {| store := f (store w); sockets := sockets w; timers := timers w;
     toasts := toasts w |}.

Definition toast (t : Toast) (w : World) : World :=
  {| store := store w; sockets := sockets w; timers := timers w;
     toasts := toasts w ++ [t] |}.

(** [setTimeout(callback, delay)] *)
Definition setTimeout (t : Timer) (w : World) : World :=
  {| store := store w; sockets := sockets w; timers := timers w ++ [t];
     toasts := toasts w |}.

Definition update_socket (h : nat) (f : Socket → Socket) (w : World) : World :=
  {| store := store w; sockets := alter f h (sockets w); timers := timers w;
     toasts := toasts w |}.

Definition ready_state (h : nat) (w : World) : option ReadyState :=
  readyState <$> sockets w !! h.

Definition is_open (h : nat) (w : World) : bool :=
  match ready_state h w with Some OPEN => true | _ => false end.

Definition set_readyState (h : nat) (r : ReadyState) (w : World) : World :=
  update_socket h (λ s, {| readyState := r; sent := sent s |}) w.

(** [ws.send(JSON.stringify(request))]; the store sends on open sockets
    only. *)
Definition ws_send (h : nat) (request : Request) (w : World) : World :=
  if is_open h w then
    update_socket h
      (λ s, {| readyState := readyState s; sent := sent s ++ [request] |}) w
  else w.

(** [ws.close()]: the closing handshake starts; the close event comes
    later. *)
Definition ws_close (h : nat) (w : World) : World :=
  match ready_state h w with
  | Some CONNECTING | Some OPEN => set_readyState h CLOSING w
  | _ => w
  end.

(** [new Set(xs)] and [s.delete(x)] on insertion-ordered member lists. *)
Definition Set_add (s : list string) (x : string) : list string :=
  if decide (x ∈ s) then s else s ++ [x].

Definition Set_from (xs : list string) : list string := foldl Set_add [] xs.

Definition Set_delete (s : list string) (x : string) : list string :=
  List.filter (λ y, negb (String.eqb y x)) s.

(** [[x, ...buffer].slice(0, capacity)] *)
Definition push (capacity : nat) (x : value) (buffer : list value) : list value :=
  take capacity (x :: buffer).

(** [connect]: a new socket, its four handlers, and [set({ ws })]. *)
Definition connect (w : World) : World :=
  let h := length (sockets w) in
  {| store := set_ws (Some h) (store w);
     sockets := sockets w ++ [{| readyState := CONNECTING; sent := [] |}];
     timers := timers w;
     toasts := toasts w |}.

(** [ws.onopen] of socket [h]. *)
Definition onopen (h : nat) (w : World) : World :=
  let w := set (λ s, set_ws (Some h) (set_connected true s)) w in
  let w := toast Toast_connected w in
  let subscriptions := subscriptions (store w) in
  if Nat.ltb 0 (length subscriptions) then ws_send h (Subscribe subscriptions) w
  else w.

(** [ws.onclose]. *)
Definition onclose (w : World) : World :=
  let w := set (λ s, set_ws None (set_connected false s)) w in
  let w := toast Toast_disconnected w in
  setTimeout (Reconnect 5000) w.

(** [ws.onerror]. *)
Definition onerror (w : World) : World := toast Toast_connection_error w.

(** [ws.onmessage].  Everything runs inside one [try]; what was [set] before
    an exception stays set. *)
Definition onmessage (event_data : string) (w : World) : World :=
  try_catch
    (data ← JSON_parse_result event_data;
     type ← get data "type";
     let case (label : string) := strict_equal type (VStr label) in
     if case "connected" then Ok w
     else if case "price_update" then
       payload ← get data "data";
       Ok (set (set_priceUpdates (push 100 payload)) w)
     else if case "arbitrage_alert" then
       payload ← get data "data";
       let w := set (set_arbitrageAlerts (push 50 payload)) w in
       Ok (try_catch
             (profit_percent ← get payload "profit_percent";
              if js_gt_number profit_percent (Fin 2%Q) then
                token_symbol ← get payload "token_symbol";
                match profit_percent with
                | VNum n => Ok (toast (Toast_new_arbitrage token_symbol n) w)
                | _ => Throw TypeError      (* no [toFixed] to call *)
                end
              else Ok w)
             (λ _, w))
     else if case "yield_update" then
       payload ← get data "data";
       Ok (set (set_yieldUpdates (push 50 payload)) w)
     else if case "subscribed" then Ok w
     else if case "pong" then Ok w
     else Ok w)
    (λ _, w).

(** [disconnect]. *)
Definition disconnect (w : World) : World :=
  match ws (store w) with
  | Some h => set (λ s, set_connected false (set_ws None s)) (ws_close h w)
  | None => w
  end.

(** [subscribe(channels)]. *)
Definition subscribe (channels : list string) (w : World) : World :=
  match ws (store w) with
  | Some h =>
      if is_open h w then
        let subscriptions := subscriptions (store w) in
        let w := ws_send h (Subscribe channels) w in
        set (set_subscriptions (Set_from (subscriptions ++ channels))) w
      else w
  | None => w
  end.

(** [unsubscribe(channels)]. *)
Definition unsubscribe (channels : list string) (w : World) : World :=
  match ws (store w) with
  | Some h =>
      if is_open h w then
        let subscriptions := subscriptions (store w) in
        let w := ws_send h (Unsubscribe channels) w in
        set (set_subscriptions (foldl Set_delete (Set_from subscriptions) channels)) w
      else w
  | None => w
  end.

(** [sendPing]. *)
Definition sendPing (w : World) : World :=
  match ws (store w) with
  | Some h => if is_open h w then ws_send h Ping w else w
  | None => w
  end.

(** One step.  The browser delivers [open] to a connecting socket, [close]
    and [error] to a socket that is not closed yet (setting [readyState]
    before the handler runs), and [message] to an open one.  A timer that
    fires leaves the pending ones and calls [connect]; the heartbeat interval
    pings while [connected]. *)
Definition step (e : Event) (w : World) : World :=
  match e with
  | Call_connect => connect w
  | Call_disconnect => disconnect w
  | Call_subscribe channels => subscribe channels w
  | Call_unsubscribe channels => unsubscribe channels w
  | Call_sendPing => sendPing w
  | Ws_open h =>
      match ready_state h w with
      | Some CONNECTING => onopen h (set_readyState h OPEN w)
      | _ => w
      end
  | Ws_close h =>
      match ready_state h w with
      | Some CLOSED | None => w
      | Some _ => onclose (set_readyState h CLOSED w)
      end
  | Ws_error h =>
      match ready_state h w with
      | Some CLOSED | None => w
      | Some _ => onerror w
      end
  | Ws_message h data => if is_open h w then onmessage data w else w
  | Timer_fires i =>
      match timers w !! i with
      | Some (Reconnect _) =>
          connect {| store := store w; sockets := sockets w;
                     timers := delete i (timers w); toasts := toasts w |}
      | None => w
      end
  | Heartbeat_tick => if connected (store w) then sendPing w else w
  end.

Definition run (events : list Event) (w : World) : World :=
  foldl (λ w e, step e w) w events.

(** ** hooks/useArbitrage.js: the statistics *)

(** The [stats] memo of [useArbitrage], over the merged [opportunities]. *)
Definition useArbitrage_stats (opportunities : list value) : result ArbStats.t :=
  match opportunities with
  | [] =>
      Ok {| ArbStats.count := 0; ArbStats.avgProfit := Fin 0%Q;
            ArbStats.maxProfit := Fin 0%Q; ArbStats.totalVolume := Fin 0%Q |}
  | _ =>
      sumProfit ← reduce (λ sum o, p ← get o "profit_percent"; mret (js_add sum p))
                    opportunities (VNum (Fin 0%Q));
      profits ← map_result (λ o, get o "profit_percent") opportunities;
      sumVolume ← reduce (λ sum o, v ← get o "volume_available";
                                   mret (nadd sum (parseFloat v)))
                    opportunities (Fin 0%Q);
      mret {| ArbStats.count := length opportunities;
              ArbStats.avgProfit :=
                js_div sumProfit (VNum (of_nat (length opportunities)));
              ArbStats.maxProfit := Math_max (map to_number profits);
              ArbStats.totalVolume := sumVolume |}
  end.

(** ** ArbitragePanel: what is shown *)

(** [fullView ? allOpportunities : allOpportunities.slice(0, 5)] *)
Definition displayOpportunities (fullView : bool) (allOpportunities : list value)
  : list value :=
  if fullView then allOpportunities else take 5 allOpportunities.

(** [v >= n] and [v <= n] against a number [n] that is not NaN: false when
    [v] is NaN as a number. *)
Definition js_ge_number (v : value) (n : number) : bool :=
  let x := to_number v in negb (is_nan x) && negb (nlt x n).

Definition js_le_number (v : value) (n : number) : bool :=
  let x := to_number v in negb (is_nan x) && negb (nlt n x).

Definition getProfitLevel (profit : value) : string :=
  if js_ge_number profit (Fin 2%Q) then "high"
  else if js_ge_number profit (Fin 1%Q) then "medium"
  else "low".

Definition getRiskLevel (risk : value) : string :=
  if js_le_number risk (Fin 3%Q) then "low"
  else if js_le_number risk (Fin 6%Q) then "medium"
  else "high".

(** ** The effects of the components on the store *)

(** [useWebSocket(channels)]: the body of its effect and the cleanup the
    effect returns. *)
Definition useWebSocket_effect (channels : list string) (w : World) : World :=
  if connected (store w) && Nat.ltb 0 (length channels)
  then subscribe channels w else w.

Definition useWebSocket_cleanup (channels : list string) (w : World) : World :=
  if Nat.ltb 0 (length channels) then unsubscribe channels w else w.

(** The effect of [Dashboard]:
    [if (connected) subscribe(['prices', 'arbitrage', 'yield'])]. *)
Definition Dashboard_effect (w : World) : World :=
  if connected (store w) then subscribe ["prices"; "arbitrage"; "yield"] w
  else w.

(** ** Header: the notification list *)

(** One entry of the list: the alert decoded like in the panel, its
    [token_symbol], and its [profit_percent?.toFixed(2)], kept here as the
    number that is formatted ([undefined] where the optional chain stops). *)
Definition Header_notification (alert : value) : result (value * value) :=
  data ← match alert with
         | VStr text => JSON_parse_result text
         | _ => Ok alert
         end;
  token_symbol ← get data "token_symbol";
  profit_percent ← get data "profit_percent";
  shown ← match profit_percent with
          | VUndefined | VNull => Ok VUndefined
          | VNum n => Ok (VNum n)
          | _ => Throw TypeError      (* no [toFixed] to call *)
          end;
  mret (token_symbol, shown).

(** [arbitrageAlerts.slice(0, 5).map(...)] *)
Definition Header_notifications (arbitrageAlerts : list value)
  : result (list (value * value)) :=
  map_result Header_notification (take 5 arbitrageAlerts).

(** ** PriceChart: the live update *)

(** [a || b] *)
Definition js_or (a b : value) : value := if truthy a then a else b.

(** [xs.slice(-n)] for a positive [n]: the last [n] elements. *)
Definition slice_last {A} (n : nat) (xs : list A) : list A :=
  drop (length xs - n) xs.

(** The effect on [priceUpdates]: only a newest update that is a text is
    looked at; it is decoded inside a [try], and charted when its symbol is
    the chart's.  [Date_getTime v] stands for the host's
    [new Date(v).getTime()]. *)
Definition PriceChart_live_update (Date_getTime : value → number)
    (symbol : string) (priceUpdates : list value) (chart : Chart.t) : Chart.t :=
  match priceUpdates with
  | [] => chart
  | latestUpdate :: _ =>
      match latestUpdate with
      | VStr text =>
          try_catch
            (parsed ← JSON_parse_result text;
             parsed_symbol ← get parsed "symbol";
             if strict_equal parsed_symbol (VStr symbol) then
               parsed_price ← get parsed "price";
               timestamp ← get parsed "timestamp";
               volume_24h ← get parsed "volume_24h";
               let new_point :=
                 {| Chart.time := Date_getTime timestamp;
                    Chart.price := parseFloat parsed_price;
                    Chart.volume := parseFloat (js_or volume_24h (VNum (Fin 0%Q))) |} in
               Ok {| Chart.chartData :=
                       slice_last 100 (Chart.chartData chart ++ [new_point]);
                     Chart.livePrice := VNum (parseFloat parsed_price) |}
             else Ok chart)
            (λ _, chart)
      | _ => chart
      end
  end.

(** ** Reading a frame the way the router does *)

(** The [type] and the [data] of a frame, when the text decodes to
    something whose properties can be read. *)
Definition envelope (event_data : string) : option (value * value) :=
  match JSON_parse event_data with
  | Some data =>
      match get data "type", get data "data" with
      | Ok type, Ok payload => Some (type, payload)
      | _, _ => None
      end
  | None => None
  end.

(** The payload of a frame whose declared type is [label]. *)
Definition payload_of (label : string) (event_data : string) : option value :=
  match envelope event_data with
  | Some (type, payload) =>
      if strict_equal type (VStr label) then Some payload else None
  | None => None
  end.

Definition payloads (label : string) (frames : list string) : list value :=
  omap (payload_of label) frames.

(** The router over a sequence of frames. *)
Definition route (frames : list string) (w : World) : World :=
  foldl (λ w event_data, onmessage event_data w) w frames.

(** The toast of the [arbitrage_alert] case, as a function of the payload. *)
Definition high_value (payload : value) : list Toast :=
  match get payload "profit_percent", get payload "token_symbol" with
  | Ok (VNum n), Ok token_symbol =>
      if nlt (Fin 2%Q) n then [Toast_new_arbitrage token_symbol n] else []
  | _, _ => []
  end.

(** The frames sent so far on socket [h]. *)
Definition sent_on (h : nat) (w : World) : option (list Request) :=
  sent <$> sockets w !! h.

(** ** Records of the arbitrage channel *)

(** [v.k] where the read cannot fail. *)
Definition field (k : string) (v : value) : value :=
  match get v k with Ok x => x | Throw _ => VUndefined end.

(** Two values carry the same identity. *)
Definition same_id (a b : value) : bool :=
  strict_equal (field "opportunity_id" a) (field "opportunity_id" b).

(** The ranking field, as a number. *)
Definition rank (v : value) : number := to_number (field "profit_percent" v).

(** A record: an object with an identity [===] recognises and a ranking
    field that is a number once coerced. *)
Definition is_record (v : value) : bool :=
  match v with
  | VObj _ => same_id v v && negb (is_nan (rank v))
  | _ => false
  end.

(** The records of the stream, as the hook decodes them. *)
Definition stream_records (wsAlerts : list value) : list value :=
  List.filter truthy (map decode_alert wsAlerts).

(** A stream entry is a record, a text that decodes to one, or something
    the hook drops. *)
Definition stream_ok (alert : value) : bool :=
  let v := decode_alert alert in is_record v || negb (truthy v).

(** What the reducer adds to [seen] when it runs over [xs]. *)
Fixpoint first_occurrences (xs seen : list value) : list value :=
  match xs with
  | [] => []
  | x :: rest =>
      if existsb (λ o, same_id o x) seen then first_occurrences rest seen
      else x :: first_occurrences rest (seen ++ [x])
  end.

(** Insertion by rank, larger ranks first, equal ranks in their order. *)
Fixpoint insert_by_rank (x : value) (sorted : list value) : list value :=
  match sorted with
  | [] => [x]
  | y :: rest =>
      if nlt (rank x) (rank y) then y :: insert_by_rank x rest else x :: sorted
  end.

Fixpoint sort_by_rank (xs : list value) : list value :=
  match xs with
  | [] => []
  | x :: rest => insert_by_rank x (sort_by_rank rest)
  end.

(** The records of the example of the specification, [{id, profit_percent}]
    with [id] standing for the identity field. *)
Definition opportunity (id profit_percent : Z) : value :=
  VObj [("opportunity_id", VNum (of_Z id));
        ("profit_percent", VNum (of_Z profit_percent))].

(** ** Records of the yield channel *)

Definition apy_of (o : value) : value := field "apy" o.

(** A yield record: an object whose [apy] is a number.  ([tvl] is whatever
    arrived; the statistics put it through [parseFloat].) *)
Definition is_yield_record (v : value) : bool :=
  match v with
  | VObj _ => match apy_of v with VNum _ => true | _ => false end
  | _ => false
  end.

Definition protocol_key (o : value) : string := to_string (field "protocol_name" o).
Definition chain_key (o : value) : string := to_string (field "chain" o).
Definition tvl_of (o : value) : number := parseFloat (field "tvl" o).
Definition apy_number (o : value) : number := to_number (apy_of o).

(** The records of [l] whose key is [k], in their order. *)
Definition group_of (key : value → string) (k : string) (l : list value)
  : list value :=
  List.filter (λ o, String.eqb (key o) k) l.

(** Sum from the left, starting from 0. *)
Definition total (xs : list number) : number := foldl nadd (Fin 0%Q) xs.

(** The entry a group of records is to have in a rollup: how many they are,
    their total TVL, and their mean APY. *)
Definition rollup (group : list value) : Group.t :=
  {| Group.count := length group;
     Group.totalTvl := total (map tvl_of group);
     Group.avgApy :=
       VNum (ndiv (total (map apy_number group)) (of_nat (length group))) |}.

(** The yield records of the example of the specification,
    [{protocol, tvl, apy}] with [protocol] standing for [protocol_name]. *)
Definition yield_record (protocol : string) (tvl : value) (apy : Z) : value :=
  VObj [("protocol_name", VStr protocol); ("tvl", tvl); ("apy", VNum (of_Z apy))].

(** One record added to a group entry. *)
Definition bump (g : Group.t) (o : value) : Group.t :=
  {| Group.count := S (Group.count g);
     Group.totalTvl := nadd (Group.totalTvl g) (tvl_of o);
     Group.avgApy := js_add (Group.avgApy g) (apy_of o) |}.

(** A name the rollups inherit a member under. *)
Definition inherited_name (k : string) : bool :=
  String.eqb k "__proto__" || existsb (String.eqb k) Object_prototype_functions.

(** A record neither of whose names is inherited. *)
Definition own_names (o : value) : bool :=
  negb (inherited_name (protocol_key o)) && negb (inherited_name (chain_key o)).

(** What [tally] does to the own entries under a name that is not
    inherited: the group of the name, made if need be, gets the record. *)
Definition tally_by (key : value → string) (m : gmap string Group.t) (o : value)
  : gmap string Group.t :=
  <[key o := bump (default empty_group (m !! key o)) o]> m.

Abbreviation records := (Forall (λ v, is_record v = true)).

Abbreviation yield_records := (Forall (λ v, is_yield_record v = true)).

Abbreviation descending :=
  (StronglySorted (λ a b, nlt (rank a) (rank b) = false)).

(** ** Inputs of the examples *)

Definition price_frame : string :=
  json "{'type':'price_update','data':{'symbol':'BTC/USDT','price':'42000.5'}}".

Definition alert_frame : string :=
  json "{'type':'arbitrage_alert','data':{'opportunity_id':'a1','token_symbol':'ETH','profit_percent':3.5}}".

Definition alert_payload : value :=
  VObj [("opportunity_id", VStr "a1"); ("token_symbol", VStr "ETH");
        ("profit_percent", VNum (Fin (7 # 2)%Q))].

Definition pong_frame : string := json "{'type':'pong'}".

(** An alert whose payload is a text that is not JSON. *)
Definition garbled_alert_frame : string :=
  json "{'type':'arbitrage_alert','data':'not json'}".

(** The records of the example with their [apy] as decimal text. *)
Definition text_apy_record (protocol : string) (tvl : value) (apy : string)
  : value :=
  VObj [("protocol_name", VStr protocol); ("tvl", tvl); ("apy", VStr apy)].

(** An alert whose [profit_percent] is the decimal text of 3.5. *)
Definition text_profit_frame : string :=
  json "{'type':'arbitrage_alert','data':{'opportunity_id':'a2','token_symbol':'ETH','profit_percent':'3.5'}}".

Definition text_profit_payload : value :=
  VObj [("opportunity_id", VStr "a2"); ("token_symbol", VStr "ETH");
        ("profit_percent", VStr "3.5")].

(** A yield record whose [tvl] is not a number, and a sound one. *)
Definition malformed_record : value := yield_record "A" (VStr "not-a-number") 10.
Definition sound_record : value := yield_record "A" (VNum (of_Z 100)) 20.

(** The store once the first socket is open. *)
Definition connected_world : World :=
  {| store := {| ws := Some 0; connected := true; priceUpdates := [];
                 arbitrageAlerts := []; yieldUpdates := []; subscriptions := [] |};
     sockets := [{| readyState := OPEN; sent := [] |}];
     timers := [];
     toasts := [Toast_connected] |}.

(** ** What the store keeps along a run *)

(** The buffers within their capacities, the registry without a double, a
    socket held whenever [connected] is set, the handle that of a socket
    that exists, and no timer pending but a reconnect in 5000 ms. *)
Definition store_invariant (w : World) : Prop :=
  length (priceUpdates (store w)) ≤ 100
  ∧ length (arbitrageAlerts (store w)) ≤ 50
  ∧ length (yieldUpdates (store w)) ≤ 50
  ∧ NoDup (subscriptions (store w))
  ∧ (connected (store w) = true → is_Some (ws (store w)))
  ∧ (∀ h, ws (store w) = Some h → h < length (sockets w))
  ∧ (∀ t, t ∈ timers w → t = Reconnect 5000).

(** How far a socket is in its life. *)
Definition stage (r : ReadyState) : nat :=
  match r with CONNECTING => 0 | OPEN => 1 | CLOSING => 2 | CLOSED => 3 end.

(** What one call or handler does to one socket: nothing, a frame sent on
    it while open, or a move to a later stage. *)
Inductive socket_step (s : Socket) : Socket → Prop :=
| socket_same : socket_step s s
| socket_sends (r : Request) :
    readyState s = OPEN →
    socket_step s {| readyState := OPEN; sent := sent s ++ [r] |}
| socket_moves (r : ReadyState) :
    stage (readyState s) < stage r →
    socket_step s {| readyState := r; sent := sent s |}
| socket_opens_and_sends (r : Request) :
    readyState s = CONNECTING →
    socket_step s {| readyState := OPEN; sent := sent s ++ [r] |}.

(** The closed sockets among [l]. *)
Definition closed (s : Socket) : nat :=
  match readyState s with CLOSED => 1 | _ => 0 end.

Fixpoint closed_count (l : list Socket) : nat :=
  match l with
  | [] => 0
  | s :: rest => closed s + closed_count rest
  end.

Definition is_object (v : value) : bool :=
  match v with VObj _ => true | _ => false end.

(** A store that lost its first socket with one channel in the registry,
    and whose second socket is connecting. *)
Definition reconnecting_world : World :=
  {| store := {| ws := Some 1; connected := false; priceUpdates := [];
                 arbitrageAlerts := []; yieldUpdates := [];
                 subscriptions := ["prices"] |};
     sockets := [{| readyState := CLOSED; sent := [] |};
                 {| readyState := CONNECTING; sent := [] |}];
     timers := [];
     toasts := [Toast_connected; Toast_disconnected] |}.

(** The payload of [price_frame], and a chart with nothing drawn. *)
Definition price_payload : value :=
  VObj [("symbol", VStr "BTC/USDT"); ("price", VStr "42000.5")].

Definition empty_chart : Chart.t :=
  {| Chart.chartData := []; Chart.livePrice := VNull |}.

(** * Properties *)

(** ** The router *)

Lemma strict_equal_label (t : value) (label : string) :
  strict_equal t (VStr label) = true ↔ t = VStr label.
Proof.
  destruct t; simpl; try (split; [discriminate | congruence]).
  rewrite String.eqb_eq. split; congruence.
Qed.

Lemma strict_equal_labels (t : value) (l1 l2 : string) :
  strict_equal t (VStr l1) = true → l1 ≠ l2 → strict_equal t (VStr l2) = false.
Proof.
  intros H1 Hne. apply strict_equal_label in H1 as ->.
  simpl. apply String.eqb_neq. exact Hne.
Qed.

Lemma get_total (v : value) (k k' : string) (x : value) :
  get v k = Ok x → ∃ y, get v k' = Ok y.
Proof. destruct v; simpl; intros; try discriminate; eauto. Qed.

(** What [onmessage] does, by the declared type of the frame. *)
Lemma onmessage_price (d : string) (w : World) (p : value) :
  payload_of "price_update" d = Some p →
  onmessage d w = set (set_priceUpdates (push 100 p)) w.
Proof.
  unfold payload_of, envelope, onmessage, JSON_parse_result.
  destruct (JSON_parse d) as [data|]; [|discriminate]; simpl.
  destruct (get data "type") as [t|]; [|discriminate]; simpl.
  destruct (get data "data") as [q|]; [|discriminate].
  destruct (strict_equal t (VStr "price_update")) eqn:E; [|discriminate].
  intros [= ->].
  rewrite (strict_equal_labels _ _ "connected" E) by discriminate.
  reflexivity.
Qed.

Lemma onmessage_yield (d : string) (w : World) (p : value) :
  payload_of "yield_update" d = Some p →
  onmessage d w = set (set_yieldUpdates (push 50 p)) w.
Proof.
  unfold payload_of, envelope, onmessage, JSON_parse_result.
  destruct (JSON_parse d) as [data|]; [|discriminate]; simpl.
  destruct (get data "type") as [t|]; [|discriminate]; simpl.
  destruct (get data "data") as [q|]; [|discriminate].
  destruct (strict_equal t (VStr "yield_update")) eqn:E; [|discriminate].
  intros [= ->].
  rewrite (strict_equal_labels _ _ "connected" E) by discriminate.
  rewrite (strict_equal_labels _ _ "price_update" E) by discriminate.
  rewrite (strict_equal_labels _ _ "arbitrage_alert" E) by discriminate.
  reflexivity.
Qed.

Lemma onmessage_arbitrage (d : string) (w : World) (p : value) :
  payload_of "arbitrage_alert" d = Some p →
  onmessage d w =
    {| store := set_arbitrageAlerts (push 50 p) (store w);
       sockets := sockets w; timers := timers w;
       toasts := toasts w ++ high_value p |}.
Proof.
  unfold payload_of, envelope, onmessage, JSON_parse_result.
  destruct (JSON_parse d) as [data|]; [|discriminate]; simpl.
  destruct (get data "type") as [t|]; [|discriminate]; simpl.
  destruct (get data "data") as [q|]; [|discriminate].
  destruct (strict_equal t (VStr "arbitrage_alert")) eqn:E; [|discriminate].
  intros [= ->].
  rewrite (strict_equal_labels _ _ "connected" E) by discriminate.
  rewrite (strict_equal_labels _ _ "price_update" E) by discriminate.
  simpl. unfold high_value, set, toast, js_gt_number.
  destruct (get p "profit_percent") as [pp|] eqn:Hpp; simpl;
    [|by rewrite app_nil_r].
  destruct (get_total _ _ "token_symbol" _ Hpp) as [tok ->].
  destruct pp as [| |b|n|s|l|o]; simpl;
    repeat case_match; simpl; by rewrite ?app_nil_r.
Qed.

Lemma onmessage_other (d : string) (w : World) :
  payload_of "price_update" d = None →
  payload_of "arbitrage_alert" d = None →
  payload_of "yield_update" d = None →
  onmessage d w = w.
Proof.
  unfold payload_of, envelope, onmessage, JSON_parse_result.
  destruct (JSON_parse d) as [data|]; [|done]; simpl.
  destruct (get data "type") as [t|] eqn:Ht; [|done]; simpl.
  destruct (get_total _ _ "data" _ Ht) as [q ->]; simpl.
  destruct (strict_equal t (VStr "price_update")); [discriminate|].
  destruct (strict_equal t (VStr "arbitrage_alert")); [discriminate|].
  destruct (strict_equal t (VStr "yield_update")); [discriminate|].
  intros _ _ _. by repeat destruct (strict_equal t _).
Qed.

Lemma payload_of_exclusive (d : string) (l1 l2 : string) (p : value) :
  payload_of l1 d = Some p → l1 ≠ l2 → payload_of l2 d = None.
Proof.
  unfold payload_of. destruct (envelope d) as [[t q]|]; [|discriminate].
  destruct (strict_equal t (VStr l1)) eqn:E; [|discriminate].
  intros _ Hne. by rewrite (strict_equal_labels _ _ _ E Hne).
Qed.

(** The four ways a frame can go, with the rewriting of [onmessage] done. *)
Ltac by_declared_type d w :=
  let p := fresh "p" in
  let Hp := fresh "Hprice" in
  let Ha := fresh "Harbitrage" in
  let Hy := fresh "Hyield" in
  destruct (payload_of "price_update" d) as [p|] eqn:Hp;
  [ rewrite (onmessage_price d w p Hp);
    pose proof (payload_of_exclusive d _ "arbitrage_alert" p Hp ltac:(discriminate)) as Ha;
    pose proof (payload_of_exclusive d _ "yield_update" p Hp ltac:(discriminate)) as Hy
  | destruct (payload_of "arbitrage_alert" d) as [p|] eqn:Ha;
    [ rewrite (onmessage_arbitrage d w p Ha);
      pose proof (payload_of_exclusive d _ "yield_update" p Ha ltac:(discriminate)) as Hy
    | destruct (payload_of "yield_update" d) as [p|] eqn:Hy;
      [ rewrite (onmessage_yield d w p Hy)
      | rewrite (onmessage_other d w Hp Ha Hy) ] ] ].

Lemma take_app_take {A} (n : nat) (l k : list A) :
  take n (l ++ take n k) = take n (l ++ k).
Proof.
  rewrite !take_app, take_take. f_equal. f_equal. lia.
Qed.

Lemma push_length (C : nat) (x : value) (buffer : list value) :
  length (push C x buffer) ≤ C.
Proof. unfold push. rewrite length_take. lia. Qed.

(** Pushing a whole sequence into a buffer of capacity [C]. *)
Lemma push_all (C : nat) (xs buffer : list value) :
  length buffer ≤ C →
  foldl (λ b x, push C x b) buffer xs = take C (reverse xs ++ buffer).
Proof.
  revert buffer. induction xs as [|x xs IH]; intros buffer Hlen; simpl.
  - by rewrite take_ge.
  - rewrite IH by apply push_length. unfold push.
    by rewrite take_app_take, reverse_cons, <- app_assoc.
Qed.

(** The buffers after a sequence of frames, from any state of the store
    whose buffers are within their capacities. *)
Lemma route_buffers (frames : list string) (w : World) :
  length (priceUpdates (store w)) ≤ 100 →
  length (arbitrageAlerts (store w)) ≤ 50 →
  length (yieldUpdates (store w)) ≤ 50 →
  let w' := route frames w in
  priceUpdates (store w')
    = take 100 (reverse (payloads "price_update" frames) ++ priceUpdates (store w))
  ∧ arbitrageAlerts (store w')
    = take 50 (reverse (payloads "arbitrage_alert" frames) ++ arbitrageAlerts (store w))
  ∧ yieldUpdates (store w')
    = take 50 (reverse (payloads "yield_update" frames) ++ yieldUpdates (store w)).
Proof.
  revert w. induction frames as [|d frames IH]; intros w H1 H2 H3.
  - simpl. by rewrite !take_ge.
  - unfold route in *. cbn [foldl payloads omap list_omap].
    specialize (IH (onmessage d w)). cbv zeta in IH.
    revert IH. by_declared_type d w; cbn [store set set_priceUpdates
      set_arbitrageAlerts set_yieldUpdates priceUpdates arbitrageAlerts
      yieldUpdates]; intros IH;
      (destruct IH as (-> & -> & ->); [by (apply push_length || lia)..|]).
  all: unfold push, payloads;
    rewrite ?Hprice, ?Harbitrage, ?Hyield, ?take_app_take, ?reverse_cons,
      <- ?app_assoc; done.
Qed.

(** C9.  One frame changes at most the buffer of its declared type: where
    the frame does not declare [price_update] the price buffer stays as it
    is, and likewise for [arbitrage_alert] and [yield_update]; a frame
    declares at most one type; the subscription set, the [connected] flag,
    the socket handle, the sockets and the timers are never touched. *)
Theorem onmessage_frame (event_data : string) (w : World) :
  let w' := onmessage event_data w in
  (payload_of "price_update" event_data = None →
     priceUpdates (store w') = priceUpdates (store w))
  ∧ (payload_of "arbitrage_alert" event_data = None →
     arbitrageAlerts (store w') = arbitrageAlerts (store w))
  ∧ (payload_of "yield_update" event_data = None →
     yieldUpdates (store w') = yieldUpdates (store w))
  ∧ (∀ l1 l2 p1 p2, payload_of l1 event_data = Some p1 →
       payload_of l2 event_data = Some p2 → l1 = l2)
  ∧ subscriptions (store w') = subscriptions (store w)
  ∧ connected (store w') = connected (store w)
  ∧ ws (store w') = ws (store w)
  ∧ sockets w' = sockets w
  ∧ timers w' = timers w.
Proof.
  cbv zeta. split_and!.
  5-9: by by_declared_type event_data w.
  1-3: by by_declared_type event_data w.
  intros l1 l2 p1 p2 H1 H2. destruct (decide (l1 = l2)) as [|Hne]; [done|].
  rewrite (payload_of_exclusive _ _ _ _ H1 Hne) in H2. discriminate.
Qed.

(** C8, as the router has it.  A frame of type [arbitrage_alert] puts its
    payload in front of the arbitrage buffer, of which the first 50 entries
    are kept, and the high-value toast is raised exactly when the payload's
    [profit_percent] is a number, not the text of one, above 2.0; no frame
    of another type raises a toast. *)
Theorem arbitrage_alert_notification (event_data : string) (w : World) :
  let w' := onmessage event_data w in
  (∀ payload, payload_of "arbitrage_alert" event_data = Some payload →
     arbitrageAlerts (store w') = take 50 (payload :: arbitrageAlerts (store w))
     ∧ (∀ n, get payload "profit_percent" = Ok (VNum n) → nlt (Fin 2%Q) n = true →
          ∃ token_symbol,
            get payload "token_symbol" = Ok token_symbol ∧
            toasts w' = toasts w ++ [Toast_new_arbitrage token_symbol n])
     ∧ (¬ (∃ n, get payload "profit_percent" = Ok (VNum n) ∧ nlt (Fin 2%Q) n = true) →
          toasts w' = toasts w))
  ∧ (payload_of "arbitrage_alert" event_data = None → toasts w' = toasts w).
Proof.
  cbv zeta. split.
  - intros payload Hp. rewrite (onmessage_arbitrage _ w _ Hp).
    cbn [store toasts arbitrageAlerts set_arbitrageAlerts].
    split; [done|]. unfold high_value. split.
    + intros n Hn Hgt. rewrite Hn.
      destruct (get_total _ _ "token_symbol" _ Hn) as [tok Htok].
      exists tok. by rewrite Htok, Hgt.
    + intros Hno. destruct (get payload "profit_percent") as [[| | |n| | |]|];
        try by rewrite app_nil_r.
      destruct (get payload "token_symbol"); [|by rewrite app_nil_r].
      destruct (nlt (Fin 2%Q) n) eqn:Hgt; [|by rewrite app_nil_r].
      destruct Hno. eauto.
  - intros Hnone. by by_declared_type event_data w.
Qed.

(** C4.  Every buffer holds the most recent payloads of its type, newest
    first, cut at its capacity (100 prices, 50 arbitrage alerts, 50 yield
    updates): after [N] insertions its size is [min N C]; a buffer never
    grows beyond its capacity, and an insertion into a full one drops the
    oldest element. *)
Theorem bounded_buffers :
  (∀ (C : nat) (xs : list value),
     let buffer := foldl (λ b x, push C x b) [] xs in
     buffer = take C (reverse xs) ∧ length buffer = length xs `min` C)
  ∧ (∀ (C : nat) (x : value) (buffer : list value),
       length (push C x buffer) ≤ C
       ∧ (length buffer = C → 0 < C →
          ∃ kept oldest, buffer = kept ++ [oldest] ∧ push C x buffer = x :: kept))
  ∧ (∀ frames : list string,
       let s := store (route frames initial_world) in
       priceUpdates s = take 100 (reverse (payloads "price_update" frames))
       ∧ length (priceUpdates s) = length (payloads "price_update" frames) `min` 100
       ∧ arbitrageAlerts s = take 50 (reverse (payloads "arbitrage_alert" frames))
       ∧ length (arbitrageAlerts s) = length (payloads "arbitrage_alert" frames) `min` 50
       ∧ yieldUpdates s = take 50 (reverse (payloads "yield_update" frames))
       ∧ length (yieldUpdates s) = length (payloads "yield_update" frames) `min` 50).
Proof.
  split_and!.
  - intros C xs. cbv zeta. rewrite push_all by (simpl; lia).
    rewrite app_nil_r. split; [done|].
    rewrite length_take, length_reverse. lia.
  - intros C x buffer. split; [apply push_length|].
    intros Hlen Hpos.
    destruct (decide (buffer = [])) as [->|Hne]; [simpl in Hlen; lia|].
    destruct (exists_last Hne) as (kept & oldest & ->).
    exists kept, oldest. split; [done|].
    rewrite length_app in Hlen. simpl in Hlen. unfold push.
    destruct C as [|C]; [lia|]. simpl. f_equal.
    rewrite take_app_le by lia. apply take_ge. lia.
  - intros frames. cbv zeta.
    destruct (route_buffers frames initial_world) as (-> & -> & ->);
      [simpl; lia..|].
    simpl. rewrite !app_nil_r, !length_take, !length_reverse.
    split_and!; (done || lia).
Qed.

(** ** The connection manager *)

Lemma elem_of_Set_add (s : list string) (x c : string) :
  c ∈ Set_add s x ↔ c ∈ s ∨ c = x.
Proof.
  unfold Set_add. case_decide; [|set_solver].
  split; [auto|]. intros [?| ->]; done.
Qed.

Lemma NoDup_Set_add (s : list string) (x : string) :
  NoDup s → NoDup (Set_add s x).
Proof.
  unfold Set_add. intros Hs. case_decide; [done|].
  apply NoDup_app. split_and!; [done| |apply NoDup_singleton].
  intros y Hy ->%list_elem_of_singleton. done.
Qed.

Lemma Set_add_all (xs s : list string) :
  (∀ c, c ∈ foldl Set_add s xs ↔ c ∈ s ∨ c ∈ xs)
  ∧ (NoDup s → NoDup (foldl Set_add s xs)).
Proof.
  revert s. induction xs as [|x xs IH]; intros s; simpl.
  - split; [|done]. intros c. set_solver.
  - destruct (IH (Set_add s x)) as [IH1 IH2]. split.
    + intros c. rewrite IH1, elem_of_Set_add. set_solver.
    + intros Hs. by apply IH2, NoDup_Set_add.
Qed.

Lemma elem_of_Set_delete (s : list string) (x c : string) :
  c ∈ Set_delete s x ↔ c ∈ s ∧ c ≠ x.
Proof.
  unfold Set_delete. rewrite !list_elem_of_In, filter_In.
  rewrite negb_true_iff, String.eqb_neq. done.
Qed.

Lemma Set_delete_all (xs s : list string) :
  (∀ c, c ∈ foldl Set_delete s xs ↔ c ∈ s ∧ c ∉ xs)
  ∧ (NoDup s → NoDup (foldl Set_delete s xs)).
Proof.
  revert s. induction xs as [|x xs IH]; intros s; simpl.
  - split; [|done]. intros c. set_solver.
  - destruct (IH (Set_delete s x)) as [IH1 IH2]. split.
    + intros c. rewrite IH1, elem_of_Set_delete. set_solver.
    + intros Hs. apply IH2. unfold Set_delete.
      apply NoDup_ListNoDup, List.NoDup_filter. by apply NoDup_ListNoDup.
Qed.

Lemma sent_on_ws_send (h : nat) (r : Request) (w : World) :
  is_open h w = true →
  sent_on h (ws_send h r w) = (λ l, l ++ [r]) <$> sent_on h w.
Proof.
  intros Hopen. unfold ws_send. rewrite Hopen.
  unfold sent_on, update_socket. simpl.
  rewrite list_lookup_alter_eq. by destruct (sockets w !! h).
Qed.

Lemma ready_state_set_readyState (h : nat) (r r0 : ReadyState) (w : World) :
  ready_state h w = Some r0 → ready_state h (set_readyState h r w) = Some r.
Proof.
  unfold ready_state, set_readyState, update_socket. simpl.
  rewrite list_lookup_alter_eq. by destruct (sockets w !! h).
Qed.

(** C2, as the store has it.  [disconnect] closes the socket the store
    holds and clears [ws] and [connected]; it neither schedules nor cancels
    a timer.  Every close event, whatever caused it, schedules one reconnect
    5000 ms later.  A timer that fires calls [connect], which opens a new
    socket. *)
Theorem reconnect_scheduling (w : World) :
  (∀ h, ws (store w) = Some h →
     let w' := disconnect w in
     ws (store w') = None ∧ connected (store w') = false
     ∧ timers w' = timers w
     ∧ (ready_state h w = Some OPEN ∨ ready_state h w = Some CONNECTING →
        ready_state h w' = Some CLOSING))
  ∧ (ws (store w) = None → disconnect w = w)
  ∧ timers (disconnect w) = timers w
  ∧ (∀ h r, ready_state h w = Some r → r ≠ CLOSED →
     let w' := step (Ws_close h) w in
     timers w' = timers w ++ [Reconnect 5000]
     ∧ ws (store w') = None ∧ connected (store w') = false
     ∧ ready_state h w' = Some CLOSED)
  ∧ (∀ i delay, timers w !! i = Some (Reconnect delay) →
     let w' := step (Timer_fires i) w in
     sockets w' = sockets w ++ [{| readyState := CONNECTING; sent := [] |}]
     ∧ ws (store w') = Some (length (sockets w))
     ∧ timers w' = delete i (timers w)).
Proof.
  assert (Htimers : timers (disconnect w) = timers w).
  { unfold disconnect, ws_close. destruct (ws (store w)) as [h|]; [|done].
    by repeat case_match. }
  split_and!; [| |done| |].
  - intros h Hws. cbv zeta. split_and!; [| |done|].
    + unfold disconnect. by rewrite Hws.
    + unfold disconnect. by rewrite Hws.
    + unfold disconnect. rewrite Hws. unfold ws_close.
      intros [Hr|Hr]; rewrite Hr; by apply (ready_state_set_readyState _ _ _ _ Hr).
  - unfold disconnect. by intros ->.
  - intros h r Hr Hne. cbv zeta. cbn [step]. rewrite Hr.
    pose proof (ready_state_set_readyState h CLOSED r w Hr) as Hclosed.
    destruct r; done.
  - intros i delay Hi. cbv zeta. cbn [step]. by rewrite Hi.
Qed.

(** C3, as the store has it.  On an open socket [subscribe] sends the
    request and makes the registry the union, [unsubscribe] sends the
    request and makes it the difference; on anything else both leave the
    world as it is.  When a socket opens, the registry is replayed in one
    request if it is not empty.  So a [subscribe] made before [connect] is
    lost: nothing is sent when the connection opens. *)
Theorem subscribe_needs_open_socket (channels : list string) (w : World) :
  (∀ h, ws (store w) = Some h → is_open h w = true →
     (let w' := subscribe channels w in
      (∀ c, c ∈ subscriptions (store w') ↔
            c ∈ subscriptions (store w) ∨ c ∈ channels)
      ∧ NoDup (subscriptions (store w'))
      ∧ sent_on h w' = (λ l, l ++ [Subscribe channels]) <$> sent_on h w)
     ∧
     (let w' := unsubscribe channels w in
      (∀ c, c ∈ subscriptions (store w') ↔
            c ∈ subscriptions (store w) ∧ c ∉ channels)
      ∧ NoDup (subscriptions (store w'))
      ∧ sent_on h w' = (λ l, l ++ [Unsubscribe channels]) <$> sent_on h w))
  ∧ ((ws (store w) = None ∨ ∃ h, ws (store w) = Some h ∧ is_open h w = false) →
     subscribe channels w = w ∧ unsubscribe channels w = w)
  ∧ (∀ h, ready_state h w = Some CONNECTING →
     let w' := step (Ws_open h) w in
     connected (store w') = true ∧ ws (store w') = Some h
     ∧ sent_on h w' =
         (λ l, l ++ match subscriptions (store w) with
                    | [] => []
                    | subs => [Subscribe subs]
                    end) <$> sent_on h w)
  ∧ (let w' := run [Call_subscribe ["prices"]; Call_connect; Ws_open 0]
                 initial_world in
     connected (store w') = true ∧ subscriptions (store w') = []
     ∧ sent_on 0 w' = Some []).
Proof.
  split_and!.
  - intros h Hws Hopen. split; cbv zeta.
    + unfold subscribe. rewrite Hws, Hopen.
      cbn [store set set_subscriptions subscriptions].
      destruct (Set_add_all (subscriptions (store w) ++ channels) []) as [Hin Hnd].
      split_and!.
      * intros c. unfold Set_from. rewrite Hin. set_solver.
      * apply Hnd. constructor.
      * by apply sent_on_ws_send.
    + unfold unsubscribe. rewrite Hws, Hopen.
      cbn [store set set_subscriptions subscriptions].
      destruct (Set_add_all (subscriptions (store w)) []) as [Hin Hnd].
      destruct (Set_delete_all channels (Set_from (subscriptions (store w))))
        as [Hin' Hnd'].
      split_and!.
      * intros c. rewrite Hin'. unfold Set_from. rewrite Hin. set_solver.
      * apply Hnd', Hnd. constructor.
      * by apply sent_on_ws_send.
  - unfold subscribe, unsubscribe. intros [->|(h & -> & ->)]; done.
  - intros h Hr. cbv zeta. cbn [step]. rewrite Hr.
    pose proof (ready_state_set_readyState h OPEN _ w Hr) as Hopen.
    unfold onopen. cbv zeta.
    cbn [store set toast set_ws set_connected subscriptions ws connected
         set_readyState update_socket].
    destruct (subscriptions (store w)) as [|c subs] eqn:Hsubs.
    + simpl. split_and!; [done..|].
      unfold sent_on, set_readyState, update_socket. simpl.
      rewrite list_lookup_alter_eq.
      destruct (sockets w !! h); simpl; by rewrite ?app_nil_r.
    + cbn [length Nat.ltb Nat.leb].
      split_and!.
      * unfold ws_send. by case_match.
      * unfold ws_send. by case_match.
      * rewrite sent_on_ws_send.
        -- unfold sent_on, set_readyState, update_socket. simpl.
           rewrite list_lookup_alter_eq. by destruct (sockets w !! h).
        -- unfold is_open, toast, set, ready_state in *. simpl in *.
           by rewrite Hopen.
  - done.
Qed.

(** ** Order on numbers *)

Lemma Qcompare_sub (x y : Q) :
  (0 ?= Qred (y + Qred (- x)))%Q = (x ?= y)%Q.
Proof.
  assert (E : (Qred (y + Qred (- x)) == y - x)%Q).
  { rewrite Qred_correct. unfold Qminus. by rewrite Qred_correct. }
  rewrite E. clear E.
  destruct (Qcompare_spec x y) as [H|H|H].
  - apply (proj1 (Qeq_alt _ _)). lra.
  - apply (proj1 (Qlt_alt _ _)). lra.
  - apply (proj1 (Qgt_alt _ _)). lra.
Qed.

(** [b - a > 0] says [a < b], NaN apart. *)
Lemma nlt_nsub (a b : number) :
  is_nan a = false → is_nan b = false →
  nlt (Fin 0%Q) (nsub b a) = nlt a b.
Proof.
  destruct a as [|[]|x], b as [|[]|y]; try done; intros _ _.
  unfold nsub, nneg, nadd, nlt. by rewrite Qcompare_sub.
Qed.

Lemma nlt_asym (a b : number) : nlt a b = true → nlt b a = false.
Proof.
  destruct a as [|[]|x], b as [|[]|y]; simpl; try done.
  rewrite <- (Qcompare_antisym x y). by destruct (x ?= y)%Q.
Qed.

(** Without NaN, "not less than" is transitive. *)
Lemma nlt_neg_trans (a b c : number) :
  is_nan b = false →
  nlt a b = false → nlt b c = false → nlt a c = false.
Proof.
  destruct a as [|[]|x], b as [|[]|y], c as [|[]|z]; simpl; try done;
    intros _.
  destruct (Qcompare_spec x y) as [H1|H1|H1]; [|done|];
    destruct (Qcompare_spec y z) as [H2|H2|H2]; try done; intros _ _;
    destruct (Qcompare_spec x z) as [H3|H3|H3]; try done; exfalso; lra.
Qed.

(** ** [===] is symmetric and transitive *)

Lemma neqb_sym (a b : number) : neqb a b = neqb b a.
Proof.
  destruct a as [|[]|x], b as [|[]|y]; simpl; try done.
  apply eq_true_iff_eq. rewrite !Qeq_bool_iff. split; intros H; by symmetry.
Qed.

Lemma neqb_trans (a b c : number) :
  neqb a b = true → neqb b c = true → neqb a c = true.
Proof.
  destruct a as [|[]|x], b as [|[]|y], c as [|[]|z]; simpl; try done.
  rewrite !Qeq_bool_iff. intros. by etransitivity.
Qed.

Lemma strict_equal_sym (a b : value) : strict_equal a b = strict_equal b a.
Proof.
  destruct a as [| |[]| | | |], b as [| |[]| | | |]; simpl; try done.
  - apply neqb_sym.
  - apply String.eqb_sym.
Qed.

Lemma strict_equal_trans (a b c : value) :
  strict_equal a b = true → strict_equal b c = true → strict_equal a c = true.
Proof.
  destruct a as [| |[]| | | |], b as [| |[]| | | |]; simpl; try done;
    destruct c as [| |[]| | | |]; simpl; try done.
  - apply neqb_trans.
  - rewrite !String.eqb_eq. congruence.
Qed.

(** ** The merge on records *)

Lemma record_get (v : value) (k : string) :
  is_record v = true → get v k = Ok (field k v).
Proof. by destruct v. Qed.

Lemma record_truthy (v : value) : is_record v = true → truthy v = true.
Proof. by destruct v. Qed.

Lemma record_same_id (v : value) : is_record v = true → same_id v v = true.
Proof. destruct v; try done. simpl. by intros [? _]%andb_true_iff. Qed.

Lemma record_rank (v : value) : is_record v = true → is_nan (rank v) = false.
Proof.
  destruct v; try done. simpl. intros [_ H]%andb_true_iff.
  by apply negb_true_iff.
Qed.

Lemma same_id_sym (a b : value) : same_id a b = same_id b a.
Proof. apply strict_equal_sym. Qed.

Lemma same_id_trans (a b c : value) :
  same_id a b = true → same_id b c = true → same_id a c = true.
Proof. apply strict_equal_trans. Qed.


Lemma same_opportunity_records (opp o : value) :
  is_record opp = true → is_record o = true →
  same_opportunity opp o = Ok (same_id o opp).
Proof.
  intros Hopp Ho. unfold same_opportunity.
  by rewrite (record_get o), (record_get opp).
Qed.

Lemma find_records (opp : value) (acc : list value) :
  is_record opp = true → records acc →
  find (same_opportunity opp) acc
  = Ok (default VUndefined (List.find (λ o, same_id o opp) acc)).
Proof.
  intros Hopp. induction 1 as [|o acc Ho _ IH]; [done|].
  cbn [find List.find]. rewrite same_opportunity_records by done.
  cbn [mbind result_bind]. destruct (same_id o opp); [done|]. apply IH.
Qed.

Lemma found_truthy (f : value → bool) (acc : list value) :
  records acc →
  truthy (default VUndefined (List.find f acc)) = existsb f acc.
Proof.
  induction 1 as [|o acc Ho _ IH]; [done|]. simpl.
  destruct (f o); [|done]. by apply record_truthy.
Qed.

Lemma dedup_step_records (opp : value) (acc : list value) :
  is_record opp = true → records acc →
  dedup_step acc opp
  = Ok (if existsb (λ o, same_id o opp) acc then acc else acc ++ [opp]).
Proof.
  intros Hopp Hacc. unfold dedup_step. rewrite find_records by done.
  cbn [mbind result_bind mret result_ret]. rewrite found_truthy by done.
  by destruct (existsb _ acc).
Qed.

Lemma reduce_dedup_records (xs acc : list value) :
  records xs → records acc →
  reduce dedup_step xs acc = Ok (acc ++ first_occurrences xs acc).
Proof.
  intros Hxs. revert acc. induction Hxs as [|x xs Hx _ IH]; intros acc Hacc.
  - simpl. by rewrite app_nil_r.
  - simpl. rewrite dedup_step_records by done. simpl.
    destruct (existsb _ acc); [by apply IH|].
    rewrite IH, <- app_assoc; [done|].
    apply Forall_app. split; [done|]. by constructor.
Qed.

Lemma elem_of_insert_by_rank (x y : value) (l : list value) :
  y ∈ insert_by_rank x l ↔ y = x ∨ y ∈ l.
Proof.
  induction l as [|z l IH]; simpl; [set_solver|].
  destruct (nlt _ _); [|set_solver]. rewrite elem_of_cons, IH. set_solver.
Qed.

Lemma elem_of_sort_by_rank (y : value) (l : list value) :
  y ∈ sort_by_rank l ↔ y ∈ l.
Proof.
  induction l as [|x l IH]; simpl; [done|].
  rewrite elem_of_insert_by_rank, IH. set_solver.
Qed.

Lemma records_sort_by_rank (l : list value) :
  records l → records (sort_by_rank l).
Proof.
  rewrite !Forall_forall. intros H y Hy. by apply H, elem_of_sort_by_rank.
Qed.

Lemma SortCompare_records (x y : value) :
  is_record x = true → is_record y = true →
  SortCompare by_profit_desc x y = Ok (nlt (rank x) (rank y)).
Proof.
  intros Hx Hy. unfold SortCompare, by_profit_desc.
  rewrite (record_get y), (record_get x) by done.
  destruct x; try done; destruct y; try done. simpl.
  f_equal. unfold js_sub. apply nlt_nsub; by apply record_rank.
Qed.

Lemma sort_insert_records (x : value) (l : list value) :
  is_record x = true → records l →
  sort_insert by_profit_desc x l = Ok (insert_by_rank x l).
Proof.
  intros Hx. induction 1 as [|y l Hy _ IH]; [done|].
  simpl. rewrite SortCompare_records by done. simpl.
  destruct (nlt _ _); [|done]. by rewrite IH.
Qed.

Lemma sort_records (l : list value) :
  records l → sort by_profit_desc l = Ok (sort_by_rank l).
Proof.
  induction 1 as [|x l Hx Hl IH]; [done|].
  simpl. rewrite IH. simpl.
  by apply sort_insert_records, records_sort_by_rank.
Qed.

(** *** First occurrences *)

Lemma existsb_true (f : value → bool) (l : list value) :
  existsb f l = true ↔ ∃ x, x ∈ l ∧ f x = true.
Proof. rewrite existsb_exists. by setoid_rewrite list_elem_of_In. Qed.

Lemma existsb_false (f : value → bool) (l : list value) :
  existsb f l = false ↔ ∀ x, x ∈ l → f x = false.
Proof.
  rewrite <- not_true_iff_false, existsb_true. split.
  - intros H x Hx. apply not_true_iff_false. eauto.
  - intros H (x & Hx & Hf). rewrite (H x Hx) in Hf. done.
Qed.

Lemma first_occurrences_spec (xs seen : list value) (r : value) :
  r ∈ first_occurrences xs seen →
  ∃ before after,
    xs = before ++ r :: after
    ∧ (∀ x, x ∈ before → same_id x r = false)
    ∧ (∀ o, o ∈ seen → same_id o r = false).
Proof.
  revert seen. induction xs as [|x xs IH]; intros seen; simpl.
  { by intros ?%elem_of_nil. }
  destruct (existsb _ seen) eqn:E.
  - intros (before & after & -> & Hb & Hs)%IH.
    exists (x :: before), after. split_and!; [done| |done].
    intros y [->|Hy]%elem_of_cons; [|by apply Hb].
    apply existsb_true in E as (o & Ho & Hox).
    apply not_true_iff_false. intros Hxr.
    specialize (Hs o Ho). by rewrite (same_id_trans o x r) in Hs.
  - intros [->|Hr]%elem_of_cons.
    + exists [], xs. split_and!; [done| |by apply existsb_false].
      by intros ? ?%elem_of_nil.
    + apply IH in Hr as (before & after & -> & Hb & Hs).
      exists (x :: before), after. split_and!; [done| |].
      * intros y [->|Hy]%elem_of_cons; [|by apply Hb].
        apply Hs. set_solver.
      * intros o Ho. apply Hs. set_solver.
Qed.

Lemma first_occurrences_distinct (xs seen : list value) :
  ForallOrdPairs (λ a b, same_id a b = false) (first_occurrences xs seen).
Proof.
  revert seen. induction xs as [|x xs IH]; intros seen; simpl; [constructor|].
  destruct (existsb _ seen); [apply IH|].
  constructor; [|apply IH].
  apply Forall_forall. intros r Hr.
  apply first_occurrences_spec in Hr as (_ & _ & _ & _ & Hs).
  apply Hs. set_solver.
Qed.

Lemma first_occurrences_complete (xs seen : list value) (x : value) :
  x ∈ xs → same_id x x = true →
  (∃ o, o ∈ seen ∧ same_id o x = true)
  ∨ (∃ r, r ∈ first_occurrences xs seen ∧ same_id r x = true).
Proof.
  revert seen. induction xs as [|y xs IH]; intros seen; simpl.
  { by intros ?%elem_of_nil. }
  intros [->|Hx]%elem_of_cons Hrefl.
  - destruct (existsb _ seen) eqn:E.
    + left. by apply existsb_true.
    + right. exists y. split; [set_solver|done].
  - destruct (existsb _ seen) eqn:E; [by apply IH|].
    destruct (IH (seen ++ [y]) Hx Hrefl) as [(o & Ho & Hox)|(r & Hr & Hrx)].
    + apply elem_of_app in Ho as [Ho| ->%list_elem_of_singleton]; [eauto|].
      right. exists y. split; [set_solver|done].
    + right. exists r. split; [set_solver|done].
Qed.

Lemma first_occurrences_sub (xs seen : list value) (r : value) :
  r ∈ first_occurrences xs seen → r ∈ xs.
Proof.
  intros (before & after & -> & _)%first_occurrences_spec. set_solver.
Qed.

Lemma first_occurrences_id (xs seen : list value) :
  ForallOrdPairs (λ a b, same_id a b = false) xs →
  (∀ x o, x ∈ xs → o ∈ seen → same_id o x = false) →
  first_occurrences xs seen = xs.
Proof.
  intros Hxs. revert seen. induction Hxs as [|x xs Hx _ IH]; intros seen Hseen.
  { done. }
  simpl. rewrite (proj2 (existsb_false _ _)).
  - f_equal. apply IH. intros y o Hy [Ho| ->%list_elem_of_singleton]%elem_of_app.
    + apply Hseen; set_solver.
    + rewrite Forall_forall in Hx. by apply Hx.
  - intros o Ho. apply Hseen; set_solver.
Qed.

(** *** Insertion by rank *)

Lemma insert_by_rank_distinct (x : value) (l : list value) :
  ForallOrdPairs (λ a b, same_id a b = false) (x :: l) →
  ForallOrdPairs (λ a b, same_id a b = false) (insert_by_rank x l).
Proof.
  induction l as [|y l IH]; [done|].
  intros H. inversion H as [|? ? Hx Hyl]; subst.
  inversion Hyl as [|? ? Hy Hl]; subst.
  inversion Hx as [|? ? Hxy Hxl]; subst.
  simpl. destruct (nlt _ _); [|done].
  constructor.
  - apply Forall_forall. intros z [->|Hz]%elem_of_insert_by_rank.
    + by rewrite same_id_sym.
    + rewrite Forall_forall in Hy. by apply Hy.
  - apply IH. by constructor.
Qed.

Lemma sort_by_rank_distinct (l : list value) :
  ForallOrdPairs (λ a b, same_id a b = false) l →
  ForallOrdPairs (λ a b, same_id a b = false) (sort_by_rank l).
Proof.
  induction 1 as [|x l Hx Hl IH]; simpl; [constructor|].
  apply insert_by_rank_distinct. constructor; [|done].
  rewrite Forall_forall in *. intros y Hy. by apply Hx, elem_of_sort_by_rank.
Qed.


Lemma insert_by_rank_descending (x : value) (l : list value) :
  records l → descending l → descending (insert_by_rank x l).
Proof.
  intros Hrec Hl. induction Hl as [|y l Hl IH Hy]; simpl.
  { repeat constructor. }
  apply Forall_cons in Hrec as [Hry Hrec].
  destruct (nlt (rank x) (rank y)) eqn:E.
  - constructor; [by apply IH|].
    apply Forall_forall. intros z [->|Hz]%elem_of_insert_by_rank.
    + by apply nlt_asym.
    + rewrite Forall_forall in Hy. by apply Hy.
  - constructor; [by constructor|].
    constructor; [done|]. rewrite Forall_forall in *. intros z Hz.
    apply (nlt_neg_trans _ (rank y)); [by apply record_rank|done|by apply Hy].
Qed.

Lemma sort_by_rank_descending (l : list value) :
  records l → descending (sort_by_rank l).
Proof.
  induction 1 as [|x l Hx Hl IH]; simpl; [constructor|].
  by apply insert_by_rank_descending; [apply records_sort_by_rank|].
Qed.

Lemma sort_by_rank_id (l : list value) :
  descending l → sort_by_rank l = l.
Proof.
  induction 1 as [|x l Hl IH Hx]; simpl; [done|].
  rewrite IH. destruct l as [|y l]; [done|]. simpl.
  apply Forall_cons in Hx as [-> _]. done.
Qed.

(** *** The hook on records *)

Lemma stream_records_records (stream : list value) :
  Forall (λ a, stream_ok a = true) stream → records (stream_records stream).
Proof.
  unfold stream_records. induction 1 as [|a stream Ha _ IH]; simpl; [done|].
  unfold stream_ok in Ha. cbv zeta in Ha.
  destruct (truthy (decode_alert a)) eqn:E; [|done].
  constructor; [|done]. simpl in Ha. by rewrite orb_false_r in Ha.
Qed.

Lemma opportunities_records (stream polled : list value) :
  Forall (λ a, stream_ok a = true) stream → records polled →
  useArbitrage_opportunities stream (Some polled)
  = Ok (sort_by_rank (first_occurrences (stream_records stream ++ polled) [])).
Proof.
  intros Hs Hp. unfold useArbitrage_opportunities. cbv zeta.
  fold (stream_records stream). cbn [default from_option].
  assert (Hm : records (stream_records stream ++ polled)).
  { apply Forall_app. split; [by apply stream_records_records|done]. }
  rewrite reduce_dedup_records by done. cbn [mbind result_bind app].
  apply sort_records. rewrite Forall_forall in *.
  intros r Hr%first_occurrences_sub. by apply Hm.
Qed.

Lemma app_split_left {A} (l1 l2 before after : list A) (r : A) :
  l1 ++ l2 = before ++ r :: after →
  (∃ after', l1 = before ++ r :: after') ∨ (∃ rest, before = l1 ++ rest).
Proof.
  revert before. induction l1 as [|x l1 IH]; intros before; simpl.
  { intros _. right. by exists before. }
  destruct before as [|y before]; simpl.
  - intros [= -> _]. left. by exists l1.
  - intros [= -> H]. destruct (IH _ H) as [[a ->]|[a ->]].
    + left. by exists a.
    + right. by exists a.
Qed.

(** C1.  On sequences of records, the merge takes the stream records first
    and the polled ones after them, keeps the first record of every identity
    (so a stream record shadows a polled one of the same identity) and
    orders what it kept by descending [profit_percent]; the stream
    [{id:1, profit_percent:5}] with the polled
    [{id:1, profit_percent:1}, {id:2, profit_percent:9}] gives
    [{id:2, profit_percent:9}, {id:1, profit_percent:5}]. *)
Theorem reconciliation (stream polled : list value) :
  Forall (λ a, stream_ok a = true) stream →
  Forall (λ r, is_record r = true) polled →
  (∃ out,
     useArbitrage_opportunities stream (Some polled) = Ok out
     ∧ let merged := stream_records stream ++ polled in
       (∀ r, r ∈ out →
          ∃ before after,
            merged = before ++ r :: after
            ∧ ∀ x, x ∈ before → same_id x r = false)
       ∧ ForallOrdPairs (λ a b, same_id a b = false) out
       ∧ (∀ x, x ∈ merged → ∃ r, r ∈ out ∧ same_id r x = true)
       ∧ (∀ x r, x ∈ stream_records stream → r ∈ out → same_id r x = true →
            ∃ before after,
              stream_records stream = before ++ r :: after
              ∧ ∀ y, y ∈ before → same_id y r = false)
       ∧ StronglySorted (λ a b, nlt (rank a) (rank b) = false) out)
  ∧ useArbitrage_opportunities
      [opportunity 1 5] (Some [opportunity 1 1; opportunity 2 9])
    = Ok [opportunity 2 9; opportunity 1 5].
Proof.
  intros Hs Hp. split; [|done].
  eexists. split; [by apply opportunities_records|]. cbv zeta.
  assert (Hm : records (stream_records stream ++ polled)).
  { apply Forall_app. split; [by apply stream_records_records|done]. }
  assert (Hfirst : ∀ r,
    r ∈ sort_by_rank (first_occurrences (stream_records stream ++ polled) []) →
    ∃ before after,
      stream_records stream ++ polled = before ++ r :: after
      ∧ ∀ x, x ∈ before → same_id x r = false).
  { intros r Hr. rewrite elem_of_sort_by_rank in Hr.
    apply first_occurrences_spec in Hr as (before & after & E & Hb & _). eauto. }
  split_and!.
  - done.
  - apply sort_by_rank_distinct, first_occurrences_distinct.
  - intros x Hx.
    destruct (first_occurrences_complete _ [] x Hx) as [(o & Ho & _)|(r & Hr & E)].
    + rewrite Forall_forall in Hm. by apply record_same_id, Hm.
    + by apply elem_of_nil in Ho.
    + exists r. split; [by apply elem_of_sort_by_rank|done].
  - intros x r Hx Hr Hrx.
    destruct (Hfirst r Hr) as (before & after & E & Hb).
    destruct (app_split_left _ _ _ _ _ E) as [[after' E']|[rest ->]]; [eauto|].
    rewrite same_id_sym, (Hb x) in Hrx; [done|]. set_solver.
  - apply sort_by_rank_descending. rewrite Forall_forall in *.
    intros r Hr%first_occurrences_sub. by apply Hm.
Qed.

(** C6.  On sequences of records the merge is idempotent: merging its own
    result with an empty polled sequence gives the result back. *)
Theorem reconciliation_idempotent (stream polled : list value) :
  Forall (λ a, stream_ok a = true) stream →
  Forall (λ r, is_record r = true) polled →
  ∃ out,
    useArbitrage_opportunities stream (Some polled) = Ok out
    ∧ useArbitrage_opportunities out (Some []) = Ok out.
Proof.
  intros Hs Hp.
  set (merged := stream_records stream ++ polled).
  assert (Hm : records merged).
  { apply Forall_app. split; [by apply stream_records_records|done]. }
  set (out := sort_by_rank (first_occurrences merged [])).
  assert (Hout : records out).
  { apply records_sort_by_rank. rewrite Forall_forall in *.
    intros r Hr%first_occurrences_sub. by apply Hm. }
  exists out. split; [by apply opportunities_records|].
  assert (Hstream : stream_records out = out).
  { unfold stream_records. clear -Hout.
    induction Hout as [|r l Hr _ IH]; [done|]. simpl.
    assert (decode_alert r = r) as -> by (by destruct r).
    rewrite (record_truthy r Hr). by f_equal. }
  rewrite opportunities_records.
  - rewrite Hstream, app_nil_r. f_equal.
    rewrite first_occurrences_id.
    + apply sort_by_rank_id, sort_by_rank_descending.
      rewrite Forall_forall in *.
      intros r Hr%first_occurrences_sub. by apply Hm.
    + apply sort_by_rank_distinct, first_occurrences_distinct.
    + by intros x o _ ?%elem_of_nil.
  - rewrite Forall_forall in *. intros r Hr. unfold stream_ok. cbv zeta.
    assert (decode_alert r = r) as ->.
    { specialize (Hout r Hr). by destruct r. }
    by rewrite (Hout r Hr).
  - constructor.
Qed.

(** Where the hook and the panel agree: every text in the alert buffer is
    JSON, and no entry, decoded, is falsy. *)
Lemma panel_agrees_where_alerts_decode (alerts : list value)
    (data : option (list value)) :
  Forall (λ a, match a with
               | VStr text => ∃ v, JSON_parse text = Some v ∧ truthy v = true
               | _ => truthy a = true
               end) alerts →
  ArbitragePanel_allOpportunities alerts data
  = useArbitrage_opportunities alerts data.
Proof.
  intros H. unfold ArbitragePanel_allOpportunities, useArbitrage_opportunities.
  assert (E : map_result (λ alert, match alert with
                                   | VStr text => JSON_parse_result text
                                   | _ => Ok alert
                                   end) alerts
              = Ok (List.filter truthy (map decode_alert alerts))).
  { induction H as [|a alerts Ha _ IH]; [done|].
    cbn [map_result map List.filter]. rewrite IH.
    assert (Hd : match a with
                 | VStr text => JSON_parse_result text
                 | _ => Ok a
                 end = Ok (decode_alert a) ∧ truthy (decode_alert a) = true).
    { unfold decode_alert, JSON_parse_result.
      destruct a; try done. destruct Ha as (v & -> & Hv). by simpl. }
    destruct Hd as [-> ->]. done. }
  by rewrite E.
Qed.

(** ** The yield statistics *)


Lemma yield_record_get (v : value) (k : string) :
  is_yield_record v = true → get v k = Ok (field k v).
Proof. by destruct v. Qed.

Lemma yield_record_apy (v : value) :
  is_yield_record v = true → apy_of v = VNum (apy_number v).
Proof.
  destruct v; try done. unfold is_yield_record, apy_number.
  by destruct (apy_of _).
Qed.

Lemma tally_own (m : gmap string Group.t) (k : string) (tvl apy : value) :
  inherited_name k = false →
  tally VUndefined m k tvl apy
  = Ok (VUndefined, <[k := add_record (default empty_group (m !! k)) tvl apy]> m).
Proof.
  unfold inherited_name, tally. intros [E1 E2]%orb_false_iff.
  destruct (m !! k); [done|]. by rewrite E1, E2, andb_false_r.
Qed.

Lemma tally_opportunity_record (o : value) (m1 m2 : gmap string Group.t) :
  is_yield_record o = true → own_names o = true →
  tally_opportunity (VUndefined, m1, m2) o
  = Ok (VUndefined, tally_by protocol_key m1 o, tally_by chain_key m2 o).
Proof.
  intros Ho [Hp Hc]%andb_true_iff.
  apply negb_true_iff in Hp. apply negb_true_iff in Hc.
  unfold tally_opportunity. rewrite !(yield_record_get o) by done.
  cbn [mbind result_bind].
  fold (protocol_key o). rewrite tally_own by done. cbn [mbind result_bind].
  fold (chain_key o). rewrite tally_own by done. done.
Qed.

Lemma reduce_tally (l : list value) (m1 m2 : gmap string Group.t) :
  yield_records l → Forall (λ o, own_names o = true) l →
  reduce tally_opportunity l (VUndefined, m1, m2)
  = Ok (VUndefined,
        foldl (tally_by protocol_key) m1 l, foldl (tally_by chain_key) m2 l).
Proof.
  intros Hl Hn. revert m1 m2.
  induction Hl as [|o l Ho _ IH]; intros m1 m2; [done|].
  apply Forall_cons in Hn as [Hn1 Hn2].
  cbn [reduce foldl]. rewrite tally_opportunity_record by done.
  cbn [mbind result_bind]. by apply IH.
Qed.

Lemma tally_by_lookup (key : value → string) (l : list value) (k : string)
    (m : gmap string Group.t) :
  foldl (tally_by key) m l !! k
  = match group_of key k l with
    | [] => m !! k
    | g => Some (foldl bump (default empty_group (m !! k)) g)
    end.
Proof.
  revert m. induction l as [|o l IH]; intros m; [done|].
  cbn [foldl]. rewrite IH. unfold group_of. cbn [List.filter].
  unfold tally_by.
  destruct (String.eqb_spec (key o) k) as [->|Hne].
  - rewrite lookup_insert_eq. cbn [default from_option].
    by destruct (List.filter _ l).
  - by rewrite lookup_insert_ne.
Qed.

Lemma foldl_bump (g : list value) (acc : Group.t) :
  foldl bump acc g
  = {| Group.count := Group.count acc + length g;
       Group.totalTvl := foldl nadd (Group.totalTvl acc) (map tvl_of g);
       Group.avgApy := foldl js_add (Group.avgApy acc) (map apy_of g) |}.
Proof.
  revert acc. induction g as [|o g IH]; intros acc; cbn [foldl map length].
  - destruct acc. simpl. by rewrite Nat.add_0_r.
  - rewrite IH. simpl. f_equal. lia.
Qed.

Lemma foldl_js_add_numbers (g : list value) (a : number) :
  yield_records g →
  foldl js_add (VNum a) (map apy_of g) = VNum (foldl nadd a (map apy_number g)).
Proof.
  intros Hg. revert a. induction Hg as [|o g Ho _ IH]; intros a; [done|].
  cbn [foldl map]. rewrite (yield_record_apy o Ho) at 1. apply IH.
Qed.

Lemma yield_records_group (key : value → string) (k : string) (l : list value) :
  yield_records l → yield_records (group_of key k l).
Proof.
  unfold group_of. rewrite !Forall_forall. intros H o Ho.
  apply H. apply list_elem_of_In in Ho. apply filter_In in Ho as [Ho _].
  by apply list_elem_of_In.
Qed.

(** A rollup after the closing pass, read at one key. *)
Lemma rollup_lookup (key : value → string) (l : list value) (k : string) :
  yield_records l →
  (average <$> foldl (tally_by key) ∅ l) !! k
  = match group_of key k l with
    | [] => None
    | g => Some (rollup g)
    end.
Proof.
  intros Hl. rewrite lookup_fmap, tally_by_lookup, lookup_empty.
  pose proof (yield_records_group key k l Hl) as Hg.
  destruct (group_of key k l) as [|o g] eqn:E; [done|].
  cbn [fmap option_fmap option_map default from_option]. f_equal.
  rewrite foldl_bump. unfold average, rollup, empty_group, total, js_div.
  cbn [Group.count Group.totalTvl Group.avgApy].
  by rewrite foldl_js_add_numbers.
Qed.

Lemma reduce_sumApy (l : list value) (a : value) :
  yield_records l →
  reduce (λ sum o, apy ← get o "apy"; mret (js_add sum apy)) l a
  = Ok (foldl js_add a (map apy_of l)).
Proof.
  intros Hl. revert a. induction Hl as [|o l Ho _ IH]; intros a; [done|].
  cbn [reduce foldl map]. rewrite (yield_record_get o) by done.
  cbn [mbind result_bind mret result_ret]. apply IH.
Qed.

Lemma reduce_sumTvl (l : list value) (a : number) :
  yield_records l →
  reduce (λ sum o, tvl ← get o "tvl"; mret (nadd sum (parseFloat tvl))) l a
  = Ok (foldl nadd a (map tvl_of l)).
Proof.
  intros Hl. revert a. induction Hl as [|o l Ho _ IH]; intros a; [done|].
  cbn [reduce foldl map]. rewrite (yield_record_get o) by done.
  cbn [mbind result_bind mret result_ret]. apply IH.
Qed.

Lemma map_result_apy (l : list value) :
  yield_records l →
  map_result (λ o, get o "apy") l = Ok (map apy_of l).
Proof.
  induction 1 as [|o l Ho _ IH]; [done|].
  cbn [map_result map]. rewrite (yield_record_get o), IH by done. done.
Qed.

(** The statistics of a non-empty sequence of yield records. *)
Lemma stats_records (l : list value) :
  yield_records l → Forall (λ o, own_names o = true) l → l ≠ [] →
  useYieldData_stats (Some l)
  = Ok {| Stats.count := length l;
          Stats.avgApy := ndiv (total (map apy_number l)) (of_nat (length l));
          Stats.maxApy := Math_max (map apy_number l);
          Stats.totalTvl := total (map tvl_of l);
          Stats.byProtocol := average <$> foldl (tally_by protocol_key) ∅ l;
          Stats.byChain := average <$> foldl (tally_by chain_key) ∅ l |}.
Proof.
  intros Hl Hn Hne. unfold useYieldData_stats. cbn [default from_option].
  destruct l as [|o l]; [done|]. 
  rewrite reduce_tally, reduce_sumApy, map_result_apy, reduce_sumTvl by done.
  cbn [mbind result_bind mret result_ret]. f_equal.
  rewrite foldl_js_add_numbers by done. unfold total, js_div. cbn [to_number].
  f_equal. by rewrite map_map.
Qed.

Lemma foldl_nadd_nan (xs : list number) (a : number) :
  a = NaN ∨ NaN ∈ xs → foldl nadd a xs = NaN.
Proof.
  revert a. induction xs as [|x xs IH]; intros a.
  - intros [->|?%elem_of_nil]; done.
  - intros [->|[<-|H]%elem_of_cons]; cbn [foldl]; apply IH; auto.
    left. by destruct a.
Qed.

Lemma is_nan_NaN (n : number) : is_nan n = true → n = NaN.
Proof. by destruct n. Qed.

Lemma elem_of_group_of (key : value → string) (k : string) (l : list value)
    (o : value) :
  o ∈ group_of key k l ↔ o ∈ l ∧ key o = k.
Proof.
  unfold group_of. by rewrite !list_elem_of_In, filter_In, String.eqb_eq.
Qed.

(** C7, as the hook has it.  For yield records whose [apy] is a number and
    whose protocol and chain names are not names of members that an object
    literal inherits, the statistics group the records by protocol name and
    by chain name; the entry of a group holds how many records it has, their
    total TVL and their mean APY.  A name no record carries has no entry, so
    every entry counts at least one record and no mean divides by zero; on no
    record at all the statistics are zero.  For
    [{protocol:"A", tvl:100, apy:10}, {protocol:"A", tvl:300, apy:20}] the
    entry of "A" is count 2, total TVL 400, mean APY 15. *)
Theorem yield_rollups (records : list value) :
  Forall (λ r, is_yield_record r = true) records →
  Forall (λ r, own_names r = true) records →
  (∃ st,
     useYieldData_stats (Some records) = Ok st
     ∧ Stats.count st = length records
     ∧ (∀ k, Stats.byProtocol st !! k
             = match group_of protocol_key k records with
               | [] => None
               | g => Some (rollup g)
               end)
     ∧ (∀ k, Stats.byChain st !! k
             = match group_of chain_key k records with
               | [] => None
               | g => Some (rollup g)
               end)
     ∧ (∀ k g, Stats.byProtocol st !! k = Some g ∨ Stats.byChain st !! k = Some g →
               0 < Group.count g)
     ∧ (records = [] →
        Stats.avgApy st = Fin 0%Q ∧ Stats.maxApy st = Fin 0%Q
        ∧ Stats.totalTvl st = Fin 0%Q))
  ∧ (∃ st,
       useYieldData_stats
         (Some [yield_record "A" (VNum (of_Z 100)) 10;
                yield_record "A" (VNum (of_Z 300)) 20]) = Ok st
       ∧ Stats.byProtocol st !! "A"
         = Some {| Group.count := 2; Group.totalTvl := Fin 400%Q;
                   Group.avgApy := VNum (Fin 15%Q) |}).
Proof.
  intros Hl Hn. split.
  - destruct (decide (records = [])) as [->|Hne].
    { eexists. split; [done|]. cbn. split_and!; try done.
      intros k g [H|H]; by rewrite lookup_empty in H. }
    eexists. split; [by apply stats_records|].
    cbn [Stats.count Stats.byProtocol Stats.byChain].
    split_and!; [done|intros k; by apply rollup_lookup..| |done].
    intros k g. rewrite !rollup_lookup by done.
    intros [H|H]; [destruct (group_of protocol_key k records)
                  |destruct (group_of chain_key k records)];
      try done; injection H as <-; simpl; lia.
  - eexists.
    split; [apply stats_records; [by repeat constructor..|done]|].
    cbn [Stats.byProtocol]. by rewrite rollup_lookup by (by repeat constructor).
Qed.

(** C5, as the hook has it.  Among yield records whose [apy] is a number
    and whose protocol and chain names are not names of inherited members, a
    record whose [tvl] does not parse is not left out and nothing is raised:
    the record is counted, in the whole and in its protocol and chain
    groups, its [apy] goes into the means and the maximum like any other, and
    its [tvl] turns the total TVL of the whole and of its two groups into
    NaN. *)
Theorem malformed_tvl_poisons_totals (records : list value) (r : value) :
  Forall (λ r, is_yield_record r = true) records →
  Forall (λ r, own_names r = true) records →
  r ∈ records →
  is_nan (tvl_of r) = true →
  ∃ st,
    useYieldData_stats (Some records) = Ok st
    ∧ Stats.count st = length records
    ∧ Stats.totalTvl st = NaN
    ∧ Stats.avgApy st
      = ndiv (total (map apy_number records)) (of_nat (length records))
    ∧ Stats.maxApy st = Math_max (map apy_number records)
    ∧ (let g := group_of protocol_key (protocol_key r) records in
       r ∈ g
       ∧ Stats.byProtocol st !! protocol_key r
         = Some {| Group.count := length g; Group.totalTvl := NaN;
                   Group.avgApy :=
                     VNum (ndiv (total (map apy_number g)) (of_nat (length g))) |})
    ∧ (let g := group_of chain_key (chain_key r) records in
       r ∈ g
       ∧ Stats.byChain st !! chain_key r
         = Some {| Group.count := length g; Group.totalTvl := NaN;
                   Group.avgApy :=
                     VNum (ndiv (total (map apy_number g)) (of_nat (length g))) |}).
Proof.
  intros Hl Hn Hr Hnan. apply is_nan_NaN in Hnan.
  assert (Hne : records ≠ []) by (intros ->; by apply elem_of_nil in Hr).
  assert (Hgroup : ∀ key, let g := group_of key (key r) records in
            r ∈ g ∧ rollup g = {| Group.count := length g; Group.totalTvl := NaN;
                   Group.avgApy :=
                     VNum (ndiv (total (map apy_number g)) (of_nat (length g))) |}).
  { intros key g. assert (Hg : r ∈ g) by (by apply elem_of_group_of).
    split; [done|]. unfold rollup. f_equal.
    apply foldl_nadd_nan. right. rewrite <- Hnan. by apply list_elem_of_fmap_2. }
  eexists. split; [by apply stats_records|].
  cbn [Stats.count Stats.totalTvl Stats.avgApy Stats.maxApy Stats.byProtocol
       Stats.byChain].
  assert (Hlookup : ∀ key,
    (average <$> foldl (tally_by key) ∅ records) !! key r
    = Some (rollup (group_of key (key r) records))).
  { intros key. rewrite rollup_lookup by done.
    destruct (Hgroup key) as [Hg _].
    by destruct (group_of key (key r) records); [apply elem_of_nil in Hg|]. }
  split_and!; try done.
  - apply foldl_nadd_nan. right. rewrite <- Hnan. by apply list_elem_of_fmap_2.
  - apply Hgroup.
  - rewrite Hlookup. f_equal. apply Hgroup.
  - apply Hgroup.
  - rewrite Hlookup. f_equal. apply Hgroup.
Qed.

(** * Further properties *)

(** ** The store under its events *)

Lemma onmessage_store_other (d : string) (w : World) :
  subscriptions (store (onmessage d w)) = subscriptions (store w)
  ∧ connected (store (onmessage d w)) = connected (store w)
  ∧ ws (store (onmessage d w)) = ws (store w)
  ∧ sockets (onmessage d w) = sockets w
  ∧ timers (onmessage d w) = timers w.
Proof. by by_declared_type d w. Qed.

Lemma onmessage_buffer_lengths (d : string) (w : World) :
  length (priceUpdates (store w)) ≤ 100 →
  length (arbitrageAlerts (store w)) ≤ 50 →
  length (yieldUpdates (store w)) ≤ 50 →
  length (priceUpdates (store (onmessage d w))) ≤ 100
  ∧ length (arbitrageAlerts (store (onmessage d w))) ≤ 50
  ∧ length (yieldUpdates (store (onmessage d w))) ≤ 50.
Proof.
  intros H1 H2 H3.
  by_declared_type d w; cbn [store set set_priceUpdates set_arbitrageAlerts
    set_yieldUpdates priceUpdates arbitrageAlerts yieldUpdates];
    split_and!; try done; apply push_length.
Qed.

(** The calls of the store and the handlers, opened up to their cases. *)
Ltac store_cases :=
  unfold disconnect, subscribe, unsubscribe, sendPing, onopen, onclose,
    onerror, connect, ws_send, ws_close, set_readyState, update_socket,
    setTimeout, toast, set;
  cbv zeta; repeat case_match; cbn.

(** Only [subscribe] and [unsubscribe] write the registry, and only a
    message writes the buffers: both outlive every connect, disconnect,
    open, close, error, timer and heartbeat. *)
Theorem registry_and_buffers_outlive_connections (e : Event) (w : World) :
  ((∀ channels, e ≠ Call_subscribe channels) →
   (∀ channels, e ≠ Call_unsubscribe channels) →
   subscriptions (store (step e w)) = subscriptions (store w))
  ∧ ((∀ h data, e ≠ Ws_message h data) →
     priceUpdates (store (step e w)) = priceUpdates (store w)
     ∧ arbitrageAlerts (store (step e w)) = arbitrageAlerts (store w)
     ∧ yieldUpdates (store (step e w)) = yieldUpdates (store w)).
Proof.
  split.
  - intros Hs Hu. destruct e as [| |chs|chs| |h|h|h|h d|i|]; cbn [step];
      try done; try (by destruct (Hs chs)); try (by destruct (Hu chs));
      try (by store_cases).
    case_match; [|done]. apply onmessage_store_other.
  - intros Hm. destruct e as [| |chs|chs| |h|h|h|h d|i|]; cbn [step];
      try done; try (by destruct (Hm h d)); by store_cases.
Qed.

Lemma NoDup_Set_from (xs : list string) : NoDup (Set_from xs).
Proof. apply Set_add_all, NoDup_nil_2. Qed.

Lemma ready_state_lt (h : nat) (r : ReadyState) (w : World) :
  ready_state h w = Some r → h < length (sockets w).
Proof.
  unfold ready_state. intros H. apply lookup_lt_is_Some.
  destruct (sockets w !! h); [eauto|done].
Qed.

Ltac invariant_cases :=
  unfold store_invariant; store_cases; split_and!;
  rewrite ?length_alter; try done;
  try (match goal with H : store_invariant _ |- _ => by apply H end);
  try (by intros ? [=]);
  try (intros _; by eauto).

Lemma store_invariant_connect (w : World) :
  store_invariant w → store_invariant (connect w).
Proof.
  intros (Hp & Ha & Hy & Hn & Hc & Hh & Ht).
  unfold store_invariant, connect; cbn. split_and!; try done.
  intros h [= <-]. rewrite length_app. simpl. lia.
Qed.

Lemma store_invariant_step (e : Event) (w : World) :
  store_invariant w → store_invariant (step e w).
Proof.
  intros Hw. pose proof Hw as (Hp & Ha & Hy & Hn & Hc & Hh & Ht).
  destruct e as [| |chs|chs| |h|h|h|h d|i|]; cbn [step].
  - by apply store_invariant_connect.
  - invariant_cases.
  - invariant_cases; apply NoDup_Set_from.
  - invariant_cases; apply Set_delete_all, NoDup_Set_from.
  - invariant_cases.
  - destruct (ready_state h w) as [[]|] eqn:Hr; try done.
    apply ready_state_lt in Hr.
    invariant_cases; by intros ? [= <-].
  - destruct (ready_state h w) as [[]|] eqn:Hr; try done;
      invariant_cases;
      intros t [Ht'| ->%list_elem_of_singleton]%elem_of_app; auto.
  - destruct (ready_state h w) as [[]|] eqn:Hr; try done; invariant_cases.
  - destruct (is_open h w); [|done].
    destruct (onmessage_store_other d w) as (Es & Ec & Ew & Ek & Et).
    destruct (onmessage_buffer_lengths d w Hp Ha Hy) as (? & ? & ?).
    unfold store_invariant. rewrite Es, Ec, Ew, Ek, Et. by split_and!.
  - destruct (timers w !! i) as [[delay]|] eqn:Hi; [|done].
    apply store_invariant_connect.
    unfold store_invariant; cbn. split_and!; try done.
    intros t Hin. apply Ht. revert Hin. apply list_elem_of_delete_inv.
  - invariant_cases.
Qed.

(** Whatever is called on the store and whatever the sockets deliver, in
    whatever order, from the initial state on: the buffers stay within 100,
    50 and 50 entries, the registry holds no channel twice, [connected] is
    set only while the store holds a socket, that socket exists, and every
    pending timer is a reconnect in 5000 ms. *)
Theorem store_invariant_run (events : list Event) :
  store_invariant (run events initial_world).
Proof.
  assert (∀ w, store_invariant w → store_invariant (run events w)) as H.
  { unfold run. induction events as [|e events IH]; intros w Hw; [done|].
    simpl. by apply IH, store_invariant_step. }
  apply H. unfold store_invariant; simpl.
  split_and!; try done; try lia; [apply NoDup_nil_2|intros t Ht; by apply elem_of_nil in Ht].
Qed.

(** ** The sockets *)

Lemma is_open_lookup (h : nat) (w : World) (s : Socket) :
  is_open h w = true → sockets w !! h = Some s → readyState s = OPEN.
Proof.
  unfold is_open, ready_state. intros H Hs. rewrite Hs in H. simpl in H.
  by destruct (readyState s).
Qed.

Lemma ready_state_lookup (h : nat) (w : World) (s : Socket) (r : ReadyState) :
  ready_state h w = Some r → sockets w !! h = Some s → readyState s = r.
Proof. unfold ready_state. intros H Hs. rewrite Hs in H. by injection H. Qed.

Lemma socket_step_ws_send (k h : nat) (r : Request) (w : World) (s : Socket) :
  sockets w !! h = Some s →
  ∃ s', sockets (ws_send k r w) !! h = Some s' ∧ socket_step s s'.
Proof.
  intros Hs. unfold ws_send. destruct (is_open k w) eqn:Hopen;
    [|exists s; split; [done|constructor]].
  cbn. destruct (decide (k = h)) as [->|Hne].
  - rewrite list_lookup_alter_eq, Hs. cbn. eexists. split; [done|].
    rewrite (is_open_lookup _ _ _ Hopen Hs).
    apply socket_sends, (is_open_lookup _ _ _ Hopen Hs).
  - rewrite list_lookup_alter_ne by done. exists s. split; [done|constructor].
Qed.

Lemma socket_step_set_readyState (k h : nat) (r : ReadyState) (w : World)
    (s : Socket) :
  (∀ r0, ready_state k w = Some r0 → stage r0 < stage r) →
  sockets w !! h = Some s →
  ∃ s', sockets (set_readyState k r w) !! h = Some s' ∧ socket_step s s'.
Proof.
  intros Hr Hs. cbn. destruct (decide (k = h)) as [->|Hne].
  - rewrite list_lookup_alter_eq, Hs. cbn. eexists. split; [done|].
    apply socket_moves, Hr. unfold ready_state. by rewrite Hs.
  - rewrite list_lookup_alter_ne by done. exists s. split; [done|constructor].
Qed.

Lemma socket_step_connect (h : nat) (w : World) (s : Socket) :
  sockets w !! h = Some s → sockets (connect w) !! h = Some s.
Proof. intros Hs. cbn. by apply lookup_app_l_Some. Qed.

Lemma socket_step_step (e : Event) (w : World) (h : nat) (s : Socket) :
  sockets w !! h = Some s →
  ∃ s', sockets (step e w) !! h = Some s' ∧ socket_step s s'.
Proof.
  intros Hs.
  assert (∃ s', sockets w !! h = Some s' ∧ socket_step s s') as Hsame
    by (exists s; split; [done|constructor]).
  destruct e as [| |chs|chs| |k|k|k|k d|i|]; cbn [step].
  - exists s. split; [by apply socket_step_connect|constructor].
  - unfold disconnect. destruct (ws (store w)) as [k|]; [|done].
    unfold set; cbn [sockets]. unfold ws_close.
    destruct (ready_state k w) as [[]|] eqn:Hr; try done;
      apply socket_step_set_readyState; try done;
      intros r0 Hr0; rewrite Hr in Hr0; injection Hr0 as <-; cbn; lia.
  - unfold subscribe. destruct (ws (store w)) as [k|]; [|done].
    destruct (is_open k w); [|done]. cbv zeta. unfold set; cbn [sockets].
    by apply socket_step_ws_send.
  - unfold unsubscribe. destruct (ws (store w)) as [k|]; [|done].
    destruct (is_open k w); [|done]. cbv zeta. unfold set; cbn [sockets].
    by apply socket_step_ws_send.
  - unfold sendPing. destruct (ws (store w)) as [k|]; [|done].
    destruct (is_open k w); [|done]. by apply socket_step_ws_send.
  - destruct (ready_state k w) as [[]|] eqn:Hr; try done.
    unfold onopen. cbv zeta. unfold toast, set; cbn [store sockets subscriptions
      set_ws set_connected].
    case_match; cycle 1.
    { apply socket_step_set_readyState; [|done].
      intros r0 Hr0; rewrite Hr in Hr0; injection Hr0 as <-; cbn; lia. }
    unfold ws_send, is_open.
    match goal with |- context [ready_state k ?w'] =>
      replace (ready_state k w') with (Some OPEN)
        by (symmetry; apply (ready_state_set_readyState k OPEN CONNECTING w Hr))
    end.
    cbn. destruct (decide (k = h)) as [->|Hne].
    + rewrite !list_lookup_alter_eq, Hs. cbn. eexists. split; [done|].
      apply socket_opens_and_sends, (ready_state_lookup _ _ _ _ Hr Hs).
    + rewrite !list_lookup_alter_ne by done. done.
  - destruct (ready_state k w) as [[]|] eqn:Hr; try done;
      unfold onclose, setTimeout, toast, set; cbn [sockets];
      apply socket_step_set_readyState; try done;
      intros r0 Hr0; rewrite Hr in Hr0; injection Hr0 as <-; cbn; lia.
  - destruct (ready_state k w) as [[]|] eqn:Hr; done.
  - destruct (is_open k w); [|done].
    destruct (onmessage_store_other d w) as (_ & _ & _ & -> & _). done.
  - destruct (timers w !! i) as [[delay]|]; [|done].
    exists s. split; [|constructor]. cbn. by apply lookup_app_l_Some.
  - destruct (connected (store w)); [|done].
    unfold sendPing. destruct (ws (store w)) as [k|]; [|done].
    destruct (is_open k w); [|done]. by apply socket_step_ws_send.
Qed.

(** No call and no event removes a socket, moves one back to an earlier
    stage of CONNECTING, OPEN, CLOSING, CLOSED, or takes back a frame that
    was sent; and a socket that has a new frame after the step is open. *)
Theorem socket_life_cycle (e : Event) (w : World) (h : nat) (s : Socket) :
  sockets w !! h = Some s →
  ∃ s', sockets (step e w) !! h = Some s'
        ∧ stage (readyState s) ≤ stage (readyState s')
        ∧ sent s `prefix_of` sent s'
        ∧ (sent s' ≠ sent s → readyState s' = OPEN).
Proof.
  intros Hs. destruct (socket_step_step e w h s Hs) as (s' & Hs' & Hstep).
  exists s'. split; [done|].
  destruct Hstep as [|r Hr|r Hr|r Hr]; cbn.
  - split_and!; done.
  - rewrite Hr. split_and!; [done|by apply prefix_app_r|done].
  - split_and!; [lia|done|done].
  - rewrite Hr. cbn. split_and!; [lia|by apply prefix_app_r|done].
Qed.

(** ** Reconnects *)

Lemma closed_count_app (l k : list Socket) :
  closed_count (l ++ k) = closed_count l + closed_count k.
Proof. induction l as [|s l IH]; simpl; lia. Qed.

Lemma closed_count_alter (f : Socket → Socket) (k : nat) (l : list Socket)
    (s : Socket) :
  l !! k = Some s →
  closed_count (alter f k l) + closed s = closed_count l + closed (f s).
Proof.
  revert k. induction l as [|x l IH]; intros [|k]; simpl; try done.
  - intros [= ->]. lia.
  - intros H. specialize (IH k H). unfold alter in IH. lia.
Qed.

Lemma closed_count_alter_le (f : Socket → Socket) (k : nat) (l : list Socket) :
  (∀ s, l !! k = Some s → closed s ≤ closed (f s)) →
  closed_count l ≤ closed_count (alter f k l).
Proof.
  intros Hf. destruct (l !! k) as [s|] eqn:Hs.
  - pose proof (closed_count_alter f k l s Hs). specialize (Hf s eq_refl). lia.
  - clear Hf. revert k Hs.
    induction l as [|x l IH]; intros [|k] Hs; simpl in *; try done.
    specialize (IH k Hs). unfold alter in IH. lia.
Qed.

Lemma closed_count_ws_send (k : nat) (r : Request) (w : World) :
  closed_count (sockets w) ≤ closed_count (sockets (ws_send k r w)).
Proof.
  unfold ws_send. destruct (is_open k w); [|done].
  cbn. by apply closed_count_alter_le.
Qed.

Lemma closed_count_set_readyState (k : nat) (r r0 : ReadyState) (w : World) :
  ready_state k w = Some r0 → r0 ≠ CLOSED →
  closed_count (sockets w) ≤ closed_count (sockets (set_readyState k r w)).
Proof.
  intros Hr Hne. cbn. apply closed_count_alter_le. intros s Hs.
  unfold closed. pose proof (ready_state_lookup _ _ _ _ Hr Hs) as E.
  rewrite E. destruct r0; try done; lia.
Qed.

Lemma closed_count_ws_close (k : nat) (w : World) :
  closed_count (sockets w) ≤ closed_count (sockets (ws_close k w)).
Proof.
  unfold ws_close. destruct (ready_state k w) as [[]|] eqn:Hr; try done;
    by apply (closed_count_set_readyState k _ _ w Hr).
Qed.

Lemma reconnects_pending_step (e : Event) (w : World) :
  length (timers w) ≤ closed_count (sockets w) →
  length (timers (step e w)) ≤ closed_count (sockets (step e w)).
Proof.
  intros H. destruct e as [| |chs|chs| |k|k|k|k d|i|]; cbn [step].
  - cbn. rewrite closed_count_app. cbn. lia.
  - unfold disconnect. destruct (ws (store w)) as [k|]; [|done].
    unfold set; cbn [sockets timers].
    pose proof (closed_count_ws_close k w).
    assert (timers (ws_close k w) = timers w) as -> by (by store_cases). lia.
  - unfold subscribe. destruct (ws (store w)) as [k|]; [|done].
    destruct (is_open k w); [|done]. cbv zeta. unfold set; cbn [sockets timers].
    pose proof (closed_count_ws_send k (Subscribe chs) w).
    assert (timers (ws_send k (Subscribe chs) w) = timers w) as ->
      by (by store_cases). lia.
  - unfold unsubscribe. destruct (ws (store w)) as [k|]; [|done].
    destruct (is_open k w); [|done]. cbv zeta. unfold set; cbn [sockets timers].
    pose proof (closed_count_ws_send k (Unsubscribe chs) w).
    assert (timers (ws_send k (Unsubscribe chs) w) = timers w) as ->
      by (by store_cases). lia.
  - unfold sendPing. destruct (ws (store w)) as [k|]; [|done].
    destruct (is_open k w); [|done].
    pose proof (closed_count_ws_send k Ping w).
    assert (timers (ws_send k Ping w) = timers w) as -> by (by store_cases). lia.
  - destruct (ready_state k w) as [[]|] eqn:Hr; try done.
    unfold onopen. cbv zeta. unfold toast, set; cbn [store sockets timers
      subscriptions set_ws set_connected].
    assert (closed_count (sockets w)
            ≤ closed_count (sockets (set_readyState k OPEN w))) as Hle.
    { by apply (closed_count_set_readyState k _ _ w Hr). }
    case_match; [|cbn in *; lia].
    match goal with |- context [ws_send k ?r ?w'] =>
      pose proof (closed_count_ws_send k r w') as Hle';
      assert (timers (ws_send k r w') = timers w) as -> by (by store_cases)
    end.
    cbn in *. lia.
  - unfold ready_state in *. destruct (sockets w !! k) as [s|] eqn:Hs; [|done].
    cbn. destruct (readyState s) eqn:Hr; try done;
      cbn; rewrite length_app; cbn;
      pose proof (closed_count_alter
        (λ s, {| readyState := CLOSED; sent := sent s |}) k _ s Hs) as Hc;
      unfold closed in Hc; rewrite Hr in Hc; cbn in Hc; lia.
  - destruct (ready_state k w) as [[]|] eqn:Hr; done.
  - destruct (is_open k w); [|done].
    destruct (onmessage_store_other d w) as (_ & _ & _ & -> & ->). done.
  - destruct (timers w !! i) as [[delay]|] eqn:Hi; [|done].
    cbn. rewrite closed_count_app. cbn.
    apply lookup_lt_Some in Hi. rewrite length_delete by eauto using lookup_lt_is_Some_2.
    lia.
  - destruct (connected (store w)); [|done].
    unfold sendPing. destruct (ws (store w)) as [k|]; [|done].
    destruct (is_open k w); [|done].
    pose proof (closed_count_ws_send k Ping w).
    assert (timers (ws_send k Ping w) = timers w) as -> by (by store_cases). lia.
Qed.

(** Reconnects come from close events only: along every run from the
    initial state there are never more timers pending than sockets that
    have closed. *)
Theorem reconnects_pending_run (events : list Event) :
  let w := run events initial_world in
  length (timers w) ≤ closed_count (sockets w).
Proof.
  cbv zeta.
  assert (∀ w, length (timers w) ≤ closed_count (sockets w) →
    length (timers (run events w)) ≤ closed_count (sockets (run events w))) as H.
  { unfold run. induction events as [|e events IH]; intros w Hw; [done|].
    simpl. by apply IH, reconnects_pending_step. }
  apply H. simpl. lia.
Qed.

(** ** Calls on the store, one after another *)



Lemma subscribe_open (channels : list string) (w : World) (h : nat) :
  ws (store w) = Some h → is_open h w = true →
  subscribe channels w
  = set (set_subscriptions (Set_from (subscriptions (store w) ++ channels)))
        (ws_send h (Subscribe channels) w).
Proof. intros Hw Ho. unfold subscribe. by rewrite Hw, Ho. Qed.

Lemma unsubscribe_open (channels : list string) (w : World) (h : nat) :
  ws (store w) = Some h → is_open h w = true →
  unsubscribe channels w
  = set (set_subscriptions
           (foldl Set_delete (Set_from (subscriptions (store w))) channels))
        (ws_send h (Unsubscribe channels) w).
Proof. intros Hw Ho. unfold unsubscribe. by rewrite Hw, Ho. Qed.

Lemma is_open_ws_send (h k : nat) (r : Request) (w : World) :
  is_open h (ws_send k r w) = is_open h w.
Proof.
  unfold ws_send. destruct (is_open k w) eqn:Ho; [|done].
  unfold is_open, ready_state in *. cbn.
  destruct (decide (k = h)) as [->|Hne].
  - rewrite list_lookup_alter_eq. by destruct (sockets w !! h).
  - by rewrite list_lookup_alter_ne.
Qed.

Lemma sent_on_set (h : nat) (f : Store → Store) (w : World) :
  sent_on h (set f w) = sent_on h w.
Proof. done. Qed.

Lemma is_open_set (h : nat) (f : Store → Store) (w : World) :
  is_open h (set f w) = is_open h w.
Proof. done. Qed.

Lemma store_ws_send (k : nat) (r : Request) (w : World) :
  store (ws_send k r w) = store w.
Proof. unfold ws_send. by destruct (is_open k w). Qed.

(** What [subscribe] and [unsubscribe] leave of an open connection. *)
Lemma subscribe_keeps_open (channels : list string) (w : World) (h : nat) :
  ws (store w) = Some h → is_open h w = true →
  ws (store (subscribe channels w)) = Some h
  ∧ is_open h (subscribe channels w) = true
  ∧ connected (store (subscribe channels w)) = connected (store w)
  ∧ subscriptions (store (subscribe channels w))
    = Set_from (subscriptions (store w) ++ channels)
  ∧ sent_on h (subscribe channels w)
    = (λ l, l ++ [Subscribe channels]) <$> sent_on h w.
Proof.
  intros Hw Ho. rewrite (subscribe_open _ _ _ Hw Ho).
  rewrite is_open_set, is_open_ws_send, sent_on_set, sent_on_ws_send by done.
  cbn. rewrite store_ws_send. done.
Qed.

Lemma unsubscribe_keeps_open (channels : list string) (w : World) (h : nat) :
  ws (store w) = Some h → is_open h w = true →
  ws (store (unsubscribe channels w)) = Some h
  ∧ is_open h (unsubscribe channels w) = true
  ∧ connected (store (unsubscribe channels w)) = connected (store w)
  ∧ subscriptions (store (unsubscribe channels w))
    = foldl Set_delete (Set_from (subscriptions (store w))) channels
  ∧ sent_on h (unsubscribe channels w)
    = (λ l, l ++ [Unsubscribe channels]) <$> sent_on h w.
Proof.
  intros Hw Ho. rewrite (unsubscribe_open _ _ _ Hw Ho).
  rewrite is_open_set, is_open_ws_send, sent_on_set, sent_on_ws_send by done.
  cbn. rewrite store_ws_send. done.
Qed.

Lemma Set_add_known (s xs : list string) :
  (∀ c, c ∈ xs → c ∈ s) → foldl Set_add s xs = s.
Proof.
  induction xs as [|x xs IH]; intros H; simpl; [done|].
  unfold Set_add at 2. rewrite decide_True by (apply H; left).
  apply IH. intros c Hc. apply H. by right.
Qed.

Lemma Set_add_fresh (s xs : list string) :
  NoDup (s ++ xs) → foldl Set_add s xs = s ++ xs.
Proof.
  revert s. induction xs as [|x xs IH]; intros s H; simpl.
  - by rewrite app_nil_r.
  - unfold Set_add at 2. rewrite decide_False.
    + rewrite IH; rewrite <- app_assoc; done.
    + apply NoDup_app in H as (_ & H & _). intros Hx. apply (H x Hx). by left.
Qed.

Lemma Set_from_NoDup (s : list string) : NoDup s → Set_from s = s.
Proof. intros H. unfold Set_from. by rewrite Set_add_fresh. Qed.

Lemma fmap_sent_twice (o : option (list Request)) (a b : Request) :
  (λ l, l ++ [b]) <$> ((λ l, l ++ [a]) <$> o) = (λ l, l ++ [a; b]) <$> o.
Proof. destruct o; cbn; [|done]. by rewrite <- app_assoc. Qed.

(** Subscribing a second time to the same channels leaves the registry
    exactly as the first call left it, order included, yet sends the
    request to the server again. *)
Theorem subscribe_twice (channels : list string) (w : World) (h : nat) :
  ws (store w) = Some h → is_open h w = true →
  let once := subscribe channels w in
  let twice := subscribe channels once in
  subscriptions (store twice) = subscriptions (store once)
  ∧ sent_on h twice
    = (λ l, l ++ [Subscribe channels; Subscribe channels]) <$> sent_on h w.
Proof.
  intros Hw Ho. cbv zeta.
  destruct (subscribe_keeps_open channels w h Hw Ho) as (Hw1 & Ho1 & _ & Es1 & Ef1).
  destruct (subscribe_keeps_open channels _ h Hw1 Ho1) as (_ & _ & _ & Es2 & Ef2).
  split.
  - rewrite Es2. unfold Set_from at 1. rewrite foldl_app.
    fold (Set_from (subscriptions (store (subscribe channels w)))).
    rewrite Set_from_NoDup by (rewrite Es1; apply NoDup_Set_from).
    apply Set_add_known. intros c Hc. rewrite Es1.
    apply Set_add_all. right. apply elem_of_app. by right.
  - by rewrite Ef2, Ef1, fmap_sent_twice.
Qed.

(** A component that mounts [useWebSocket(channels)] on an open connection
    and unmounts again has sent a subscribe and an unsubscribe request, and
    leaves in the registry the channels that were there before less its
    own: a channel another component had subscribed to as well is
    dropped with them. *)
Theorem useWebSocket_unmount_drops_channels (channels : list string)
    (w : World) (h : nat) :
  channels ≠ [] →
  connected (store w) = true → ws (store w) = Some h → is_open h w = true →
  let w' := useWebSocket_cleanup channels (useWebSocket_effect channels w) in
  (∀ c, c ∈ subscriptions (store w')
        ↔ c ∈ subscriptions (store w) ∧ c ∉ channels)
  ∧ sent_on h w'
    = (λ l, l ++ [Subscribe channels; Unsubscribe channels]) <$> sent_on h w.
Proof.
  intros Hne Hc Hw Ho. cbv zeta.
  unfold useWebSocket_cleanup, useWebSocket_effect. rewrite Hc.
  destruct channels as [|c0 channels]; [done|]. cbn [length Nat.ltb Nat.leb andb].
  set (chs := c0 :: channels).
  destruct (subscribe_keeps_open chs w h Hw Ho) as (Hw1 & Ho1 & _ & Es1 & Ef1).
  destruct (unsubscribe_keeps_open chs _ h Hw1 Ho1) as (_ & _ & _ & Es2 & Ef2).
  split.
  - intros c. rewrite Es2.
    rewrite (proj1 (Set_delete_all _ _)).
    unfold Set_from. rewrite (proj1 (Set_add_all _ _)), Es1.
    unfold Set_from. rewrite (proj1 (Set_add_all _ _)), elem_of_app.
    set_solver.
  - by rewrite Ef2, Ef1, fmap_sent_twice.
Qed.

(** When the effect of [useWebSocket(channels)] runs again on an open
    connection (its cleanup first, then the effect), the unsubscribe request
    goes out before the subscribe request, and the channels end up in the
    registry beside those that were there. *)
Theorem useWebSocket_rerun (channels : list string) (w : World) (h : nat) :
  channels ≠ [] →
  connected (store w) = true → ws (store w) = Some h → is_open h w = true →
  let w' := useWebSocket_effect channels (useWebSocket_cleanup channels w) in
  (∀ c, c ∈ subscriptions (store w')
        ↔ c ∈ subscriptions (store w) ∨ c ∈ channels)
  ∧ sent_on h w'
    = (λ l, l ++ [Unsubscribe channels; Subscribe channels]) <$> sent_on h w.
Proof.
  intros Hne Hc Hw Ho. cbv zeta.
  unfold useWebSocket_cleanup, useWebSocket_effect.
  destruct channels as [|c0 channels]; [done|]. cbn [length Nat.ltb Nat.leb andb].
  set (chs := c0 :: channels).
  destruct (unsubscribe_keeps_open chs w h Hw Ho) as (Hw1 & Ho1 & Ec1 & Es1 & Ef1).
  rewrite Ec1, Hc. cbn [andb].
  destruct (subscribe_keeps_open chs _ h Hw1 Ho1) as (_ & _ & _ & Es2 & Ef2).
  split.
  - intros c. rewrite Es2.
    unfold Set_from. rewrite (proj1 (Set_add_all _ _)), elem_of_app, Es1.
    rewrite (proj1 (Set_delete_all _ _)).
    unfold Set_from. rewrite (proj1 (Set_add_all _ _)).
    destruct (decide (c ∈ chs)); set_solver.
  - by rewrite Ef2, Ef1, fmap_sent_twice.
Qed.

(** When a socket opens with channels in the registry, [onopen] sends them
    to the server, and the effect of [Dashboard], which runs because
    [connected] is now set, sends its three channels on top: after a
    reconnect the server gets two subscribe requests. *)
Theorem Dashboard_subscribes_again_on_reconnect (w : World) (h : nat) :
  ready_state h w = Some CONNECTING →
  subscriptions (store w) ≠ [] →
  let w' := Dashboard_effect (step (Ws_open h) w) in
  connected (store w') = true
  ∧ sent_on h w'
    = (λ l, l ++ [Subscribe (subscriptions (store w));
                  Subscribe ["prices"; "arbitrage"; "yield"]])
      <$> sent_on h w.
Proof.
  intros Hr Hne. cbv zeta.
  pose proof (ready_state_set_readyState h OPEN _ w Hr) as Hopen.
  assert (is_open h (set_readyState h OPEN w) = true) as Ho
    by (unfold is_open; by rewrite Hopen).
  set (w0 := toast Toast_connected
               (set (λ s, set_ws (Some h) (set_connected true s))
                    (set_readyState h OPEN w))).
  assert (step (Ws_open h) w
          = ws_send h (Subscribe (subscriptions (store w))) w0) as ->.
  { cbn [step]. rewrite Hr. unfold onopen. cbv zeta. fold w0.
    change (subscriptions (store w0)) with (subscriptions (store w)).
    by destruct (subscriptions (store w)). }
  set (w1 := ws_send h (Subscribe (subscriptions (store w))) w0).
  assert (is_open h w1 = true) as Ho1 by (unfold w1; by rewrite is_open_ws_send).
  assert (store w1 = set_ws (Some h) (set_connected true (store w))) as Est
    by (unfold w1; by rewrite store_ws_send).
  unfold Dashboard_effect. rewrite Est. cbn [connected set_ws set_connected].
  assert (ws (store w1) = Some h) as Hw1 by by rewrite Est.
  destruct (subscribe_keeps_open ["prices"; "arbitrage"; "yield"] w1 h Hw1 Ho1)
    as (_ & _ & Ec & _ & Ef).
  split; [by rewrite Ec, Est|].
  rewrite Ef. unfold w1. rewrite sent_on_ws_send by done.
  rewrite fmap_sent_twice. unfold sent_on. cbn.
  rewrite list_lookup_alter_eq. by destruct (sockets w !! h).
Qed.

(** ** What the panel shows, and the statistics of the hook *)

Lemma decoded_record_stream_ok (a : value) :
  is_record (decode_alert a) = true → stream_ok a = true.
Proof. unfold stream_ok. cbv zeta. by intros ->. Qed.

Lemma decoded_record_decodes (a : value) :
  is_record (decode_alert a) = true →
  match a with
  | VStr text => ∃ v, JSON_parse text = Some v ∧ truthy v = true
  | _ => truthy a = true
  end.
Proof.
  unfold decode_alert, JSON_parse_result.
  destruct a; cbn; try done; try (by intros ?%record_truthy).
  destruct (JSON_parse s) as [v|]; cbn; [|done].
  intros ?%record_truthy. eauto.
Qed.

(** Where every alert decodes to a record, the panel and the hook compute
    the same list: records, larger ranks first. *)
Lemma merged_records (alerts polled : list value) :
  Forall (λ a, is_record (decode_alert a) = true) alerts → records polled →
  ∃ all,
    ArbitragePanel_allOpportunities alerts (Some polled) = Ok all
    ∧ useArbitrage_opportunities alerts (Some polled) = Ok all
    ∧ records all ∧ descending all.
Proof.
  intros Ha Hp.
  assert (Forall (λ a, stream_ok a = true) alerts) as Hok
    by (eapply Forall_impl; [exact Ha|apply decoded_record_stream_ok]).
  exists (sort_by_rank (first_occurrences (stream_records alerts ++ polled) [])).
  assert (records (first_occurrences (stream_records alerts ++ polled) [])) as Hr.
  { pose proof (stream_records_records alerts Hok) as Hs.
    rewrite Forall_forall in *. intros r Hr%first_occurrences_sub.
    apply elem_of_app in Hr as [Hr|Hr]; auto. }
  split_and!.
  - rewrite panel_agrees_where_alerts_decode
      by (eapply Forall_impl; [exact Ha|apply decoded_record_decodes]).
    by apply opportunities_records.
  - by apply opportunities_records.
  - by apply records_sort_by_rank.
  - by apply sort_by_rank_descending.
Qed.

Lemma descending_app (l k : list value) (a b : value) :
  descending (l ++ k) → a ∈ l → b ∈ k → nlt (rank a) (rank b) = false.
Proof.
  induction l as [|x l IH]; simpl; intros H Ha Hb.
  - by apply elem_of_nil in Ha.
  - apply StronglySorted_inv in H as [Hl Hx].
    apply elem_of_cons in Ha as [->|Ha]; [|by apply IH].
    rewrite Forall_forall in Hx. apply Hx, elem_of_app. by right.
Qed.

(** Out of full view the panel shows the first five opportunities of the
    merged list, and none of those it leaves out ranks above one it
    shows; in full view it shows them all. *)
Theorem panel_shows_the_five_best (alerts polled : list value) :
  Forall (λ a, is_record (decode_alert a) = true) alerts → records polled →
  ∃ all,
    ArbitragePanel_allOpportunities alerts (Some polled) = Ok all
    ∧ displayOpportunities true all = all
    ∧ let shown := displayOpportunities false all in
      length shown = min 5 (length all)
      ∧ all = shown ++ drop 5 all
      ∧ ∀ s o, s ∈ shown → o ∈ drop 5 all → nlt (rank s) (rank o) = false.
Proof.
  intros Ha Hp. destruct (merged_records alerts polled Ha Hp)
    as (all & Hpanel & _ & _ & Hd).
  exists all. split; [done|]. split; [done|]. cbv zeta.
  unfold displayOpportunities. split_and!.
  - apply length_take.
  - by rewrite take_drop.
  - intros s o Hs Ho. apply (descending_app (take 5 all) (drop 5 all)); try done.
    by rewrite take_drop.
Qed.

Lemma reduce_sumProfit (l : list value) (a : value) :
  records l →
  reduce (λ sum o, p ← get o "profit_percent"; mret (js_add sum p)) l a
  = Ok (foldl js_add a (map (field "profit_percent") l)).
Proof.
  intros Hl. revert a. induction Hl as [|o l Ho _ IH]; intros a; [done|].
  cbn [reduce foldl map]. rewrite (record_get o) by done.
  cbn [mbind result_bind mret result_ret]. apply IH.
Qed.

Lemma reduce_sumVolume (l : list value) (a : number) :
  records l →
  reduce (λ sum o, v ← get o "volume_available"; mret (nadd sum (parseFloat v))) l a
  = Ok (foldl nadd a (map (λ o, parseFloat (field "volume_available" o)) l)).
Proof.
  intros Hl. revert a. induction Hl as [|o l Ho _ IH]; intros a; [done|].
  cbn [reduce foldl map]. rewrite (record_get o) by done.
  cbn [mbind result_bind mret result_ret]. apply IH.
Qed.

Lemma map_result_profit (l : list value) :
  records l →
  map_result (λ o, get o "profit_percent") l = Ok (map (field "profit_percent") l).
Proof.
  induction 1 as [|o l Ho _ IH]; [done|].
  cbn [map_result map]. rewrite (record_get o), IH by done. done.
Qed.

(** The statistics of a non-empty list of records. *)
Lemma arbitrage_stats_records (l : list value) :
  records l → l ≠ [] →
  useArbitrage_stats l
  = Ok {| ArbStats.count := length l;
          ArbStats.avgProfit :=
            js_div (foldl js_add (VNum (Fin 0%Q)) (map (field "profit_percent") l))
                   (VNum (of_nat (length l)));
          ArbStats.maxProfit := Math_max (map rank l);
          ArbStats.totalVolume :=
            total (map (λ o, parseFloat (field "volume_available" o)) l) |}.
Proof.
  intros Hl Hne. unfold useArbitrage_stats. destruct l as [|o l]; [done|].
  rewrite reduce_sumProfit, map_result_profit, reduce_sumVolume by done.
  cbn [mbind result_bind mret result_ret]. by rewrite map_map.
Qed.

Lemma nmax_keeps (a b : number) :
  is_nan a = false → is_nan b = false → nlt a b = false → nmax a b = a.
Proof. intros Ha Hb H. destruct a, b; try done; unfold nmax; by rewrite H. Qed.

Lemma foldl_nmax_keeps (a : number) (xs : list number) :
  is_nan a = false →
  Forall (λ x, is_nan x = false ∧ nlt a x = false) xs →
  foldl nmax a xs = a.
Proof.
  intros Ha. induction 1 as [|x xs [Hx Hlt] _ IH]; [done|].
  cbn [foldl]. by rewrite nmax_keeps.
Qed.

Lemma nmax_bottom (a : number) : nmax (Inf true) a = a.
Proof. by destruct a as [|[]|]. Qed.

Lemma Math_max_descending (o : value) (l : list value) :
  records (o :: l) → descending (o :: l) → Math_max (map rank (o :: l)) = rank o.
Proof.
  intros Hr Hd. unfold Math_max. cbn [map foldl]. rewrite nmax_bottom.
  apply Forall_cons in Hr as [Ho Hl]. apply StronglySorted_inv in Hd as [_ Hd].
  apply foldl_nmax_keeps; [by apply record_rank|].
  apply Forall_fmap. rewrite Forall_forall in *. intros x Hx. cbn.
  split; [apply record_rank|]; auto.
Qed.

Lemma nlt_irrefl (a : number) : nlt a a = false.
Proof.
  destruct (nlt a a) eqn:E; [|done]. by rewrite (nlt_asym a a E) in E.
Qed.

(** The statistics of the list the hook returns: [count] is its length,
    and [maxProfit] is the rank of its first opportunity, which none of the
    list exceeds; of no opportunity at all, it is 0. *)
Theorem stats_of_merged_opportunities (stream polled : list value) :
  Forall (λ a, stream_ok a = true) stream → records polled →
  ∃ opportunities stats,
    useArbitrage_opportunities stream (Some polled) = Ok opportunities
    ∧ useArbitrage_stats opportunities = Ok stats
    ∧ ArbStats.count stats = length opportunities
    ∧ ArbStats.maxProfit stats
      = match opportunities with [] => Fin 0%Q | best :: _ => rank best end
    ∧ ∀ o, o ∈ opportunities → nlt (ArbStats.maxProfit stats) (rank o) = false.
Proof.
  intros Hs Hp. rewrite opportunities_records by done.
  set (merged := first_occurrences (stream_records stream ++ polled) []).
  exists (sort_by_rank merged).
  assert (records merged) as Hm.
  { pose proof (stream_records_records stream Hs) as Hs'.
    rewrite Forall_forall in *. intros r Hr%first_occurrences_sub.
    apply elem_of_app in Hr as [Hr|Hr]; auto. }
  pose proof (records_sort_by_rank merged Hm) as Hr.
  pose proof (sort_by_rank_descending merged Hm) as Hd.
  destruct (sort_by_rank merged) as [|best rest] eqn:E.
  - eexists. split; [done|]. split; [done|]. cbn. split_and!; try done.
    intros o Ho. by apply elem_of_nil in Ho.
  - eexists. split; [done|].
    rewrite arbitrage_stats_records by done. split; [done|].
    cbn [ArbStats.count ArbStats.maxProfit]. rewrite Math_max_descending by done.
    split_and!; try done.
    intros o [->|Ho]%elem_of_cons; [apply nlt_irrefl|].
    apply StronglySorted_inv in Hd as [_ Hd]. rewrite Forall_forall in Hd. auto.
Qed.

(** One opportunity whose [volume_available] does not read as a number,
    one that has none for instance, makes [totalVolume] NaN, while it is
    still counted. *)
Theorem unreadable_volume_poisons_total (opportunities : list value) (o : value) :
  records opportunities → o ∈ opportunities →
  is_nan (parseFloat (field "volume_available" o)) = true →
  ∃ stats, useArbitrage_stats opportunities = Ok stats
           ∧ ArbStats.count stats = length opportunities
           ∧ ArbStats.totalVolume stats = NaN.
Proof.
  intros Hr Ho Hnan. eexists. rewrite arbitrage_stats_records.
  - split; [done|]. split; [done|]. cbn [ArbStats.totalVolume]. unfold total.
    apply foldl_nadd_nan. right. rewrite <- (is_nan_NaN _ Hnan).
    by apply (list_elem_of_fmap_2 (λ o, parseFloat (field "volume_available" o))).
  - done.
  - intros ->. by apply elem_of_nil in Ho.
Qed.

(** ** Toast, header entry and badge of one alert *)

(** An alert for which the router raises the high-value toast is one the
    header can list, with the token and the number of the toast, and one
    whose badge in the panel is [high]. *)
Theorem toasted_alert_in_header_and_panel (event_data : string) (w : World)
    (payload : value) :
  payload_of "arbitrage_alert" event_data = Some payload →
  toasts (onmessage event_data w) ≠ toasts w →
  ∃ token_symbol n,
    toasts (onmessage event_data w)
    = toasts w ++ [Toast_new_arbitrage token_symbol n]
    ∧ Header_notification payload = Ok (token_symbol, VNum n)
    ∧ getProfitLevel (field "profit_percent" payload) = "high".
Proof.
  intros Hp. rewrite (onmessage_arbitrage _ w _ Hp). cbn [toasts].
  unfold high_value, Header_notification, getProfitLevel, js_ge_number, field.
  destruct payload as [| |b|m|s|l|props]; cbn -[nlt to_number];
    try (by rewrite app_nil_r).
  destruct (default VUndefined (assoc "profit_percent" props))
    as [| |b|n|s|l|o]; cbn -[nlt to_number]; try (by rewrite app_nil_r).
  destruct (nlt (Fin 2%Q) n) eqn:Hgt; [|by rewrite app_nil_r].
  intros _. eexists _, n. split; [done|]. split; [done|].
  change (to_number (VNum n)) with n.
  rewrite (nlt_asym _ _ Hgt). by destruct n.
Qed.

(** A profit that is no number gets the lowest profit badge, a risk score
    that is no number the highest risk badge. *)
Theorem levels_of_missing_scores (v : value) :
  is_nan (to_number v) = true →
  getProfitLevel v = "low" ∧ getRiskLevel v = "high".
Proof.
  intros H. unfold getProfitLevel, getRiskLevel, js_ge_number, js_le_number.
  cbv zeta. by rewrite H.
Qed.

(** ** The header list *)

Lemma map_result_throws {A B} (f : A → result B) (xs : list A) (a : A) :
  a ∈ xs → (∃ e, f a = Throw e) → ∃ e, map_result f xs = Throw e.
Proof.
  intros Ha Hf. induction xs as [|x xs IH]; [by apply elem_of_nil in Ha|].
  cbn [map_result]. destruct (f x) as [y|e] eqn:E; cbn; [|eauto].
  apply elem_of_cons in Ha as [->|Ha].
  - destruct Hf as [e Hf]. congruence.
  - destruct (IH Ha) as [e ->]. cbn. eauto.
Qed.

(** An alert among the five newest that the hook drops because it decodes
    to nothing ([null] itself, a text that is no JSON, the text of [null])
    makes the whole notification list of the header throw. *)
Theorem Header_throws_where_hook_drops (arbitrageAlerts : list value)
    (i : nat) (alert : value) :
  i < 5 → arbitrageAlerts !! i = Some alert → decode_alert alert = VNull →
  stream_records [alert] = []
  ∧ ∃ e, Header_notifications arbitrageAlerts = Throw e.
Proof.
  intros Hi Ha Hd. split.
  - unfold stream_records. cbn. by rewrite Hd.
  - apply (map_result_throws _ _ alert).
    + apply list_elem_of_lookup. exists i. by rewrite lookup_take_lt.
    + unfold Header_notification. revert Hd.
      unfold decode_alert, JSON_parse_result.
      destruct alert as [| |b|n|text|l|o]; cbn; try done; eauto.
      destruct (JSON_parse text) as [v|]; cbn; [|eauto].
      intros ->. cbn. eauto.
Qed.

(** ** The chart *)

Lemma slice_last_length {A} (n : nat) (xs : list A) :
  length (slice_last n xs) ≤ n.
Proof. unfold slice_last. rewrite length_drop. lia. Qed.

(** A [price_update] frame whose payload is not a text, a JSON object for
    instance, is stored by the router and then left out by the chart: the
    newest update is looked at only when it is a text. *)
Theorem chart_ignores_decoded_payloads (Date_getTime : value → number)
    (symbol : string) (event_data : string) (w : World) (payload : value)
    (chart : Chart.t) :
  payload_of "price_update" event_data = Some payload →
  (∀ text, payload ≠ VStr text) →
  priceUpdates (store (onmessage event_data w)) !! 0 = Some payload
  ∧ PriceChart_live_update Date_getTime symbol
      (priceUpdates (store (onmessage event_data w))) chart = chart.
Proof.
  intros Hp Hne. rewrite (onmessage_price _ w _ Hp).
  cbn [store set set_priceUpdates priceUpdates]. unfold push. cbn [take].
  split; [done|]. cbn [PriceChart_live_update].
  destruct payload; try done. by destruct (Hne s).
Qed.

(** An update either leaves the chart as it is, or appends one point that
    carries the live price and keeps the last 100 points. *)
Theorem chart_window (Date_getTime : value → number) (symbol : string)
    (priceUpdates : list value) (chart : Chart.t) :
  let chart' := PriceChart_live_update Date_getTime symbol priceUpdates chart in
  chart' = chart
  ∨ ∃ point,
      Chart.chartData chart'
      = slice_last 100 (Chart.chartData chart ++ [point])
      ∧ last (Chart.chartData chart') = Some point
      ∧ Chart.livePrice chart' = VNum (Chart.price point)
      ∧ length (Chart.chartData chart') ≤ 100.
Proof.
  cbv zeta. unfold PriceChart_live_update.
  destruct priceUpdates as [|latestUpdate rest]; [by left|].
  destruct latestUpdate as [| |b|n|text|l|o]; try by left.
  destruct (JSON_parse_result text) as [parsed|e]; [|by left].
  cbn [mbind result_bind try_catch].
  destruct (get parsed "symbol") as [parsed_symbol|e]; [|by left].
  cbn [mbind result_bind try_catch].
  destruct (strict_equal parsed_symbol (VStr symbol)); [|by left].
  destruct (get parsed "price") as [parsed_price|e]; [|by left].
  cbn [mbind result_bind try_catch].
  destruct (get parsed "timestamp") as [timestamp|e]; [|by left].
  cbn [mbind result_bind try_catch].
  destruct (get parsed "volume_24h") as [volume_24h|e]; [|by left].
  cbn [mbind result_bind try_catch]. right. eexists.
  cbn [Chart.chartData Chart.livePrice]. split; [done|].
  split_and!; [|done|apply slice_last_length].
  unfold slice_last. rewrite length_app. cbn [length].
  rewrite drop_app_le by lia. by rewrite last_snoc.
Qed.
End Program.

(** * The properties at concrete inputs *)

Lemma reconciliation_witness :
  Forall (λ a, stream_ok json_parse Number_toString a = true) [opportunity 1 5]
  ∧ Forall (λ r, is_record Number_toString r = true)
      [opportunity 1 1; opportunity 2 9]
  ∧ useArbitrage_opportunities json_parse Number_toString
      [opportunity 1 5] (Some [opportunity 1 1; opportunity 2 9])
    = Ok [opportunity 2 9; opportunity 1 5].
Proof.
  assert (H1 : Forall (λ a, stream_ok json_parse Number_toString a = true)
                 [opportunity 1 5]) by (repeat constructor).
  assert (H2 : Forall (λ r, is_record Number_toString r = true)
                 [opportunity 1 1; opportunity 2 9]) by (repeat constructor).
  split; [exact H1|]. split; [exact H2|].
  exact (proj2 (reconciliation json_parse Number_toString _ _ H1 H2)).
Defined.

Lemma reconciliation_idempotent_witness :
  Forall (λ a, stream_ok json_parse Number_toString a = true)
    [VStr "not json"; opportunity 1 5]
  ∧ Forall (λ r, is_record Number_toString r = true)
      [opportunity 1 1; opportunity 2 9]
  ∧ ∃ out,
      useArbitrage_opportunities json_parse Number_toString
        [VStr "not json"; opportunity 1 5]
        (Some [opportunity 1 1; opportunity 2 9]) = Ok out
      ∧ useArbitrage_opportunities json_parse Number_toString out (Some [])
        = Ok out.
Proof.
  assert (H1 : Forall (λ a, stream_ok json_parse Number_toString a = true)
                 [VStr "not json"; opportunity 1 5]) by (repeat constructor).
  assert (H2 : Forall (λ r, is_record Number_toString r = true)
                 [opportunity 1 1; opportunity 2 9]) by (repeat constructor).
  split; [exact H1|]. split; [exact H2|].
  exact (reconciliation_idempotent json_parse Number_toString _ _ H1 H2).
Defined.

Lemma bounded_buffers_witness :
  length [VNull; VBool true] = 2 ∧ 0 < 2
  ∧ ∃ kept oldest,
      [VNull; VBool true] = kept ++ [oldest]
      ∧ push 2 VUndefined [VNull; VBool true] = VUndefined :: kept.
Proof.
  split; [reflexivity|]. split; [lia|].
  apply (proj2 (proj1 (proj2 (bounded_buffers json_parse Number_toString))
                  2 VUndefined [VNull; VBool true])); [reflexivity|lia].
Defined.

Lemma onmessage_frame_witness :
  payload_of json_parse "arbitrage_alert" price_frame = None
  ∧ payload_of json_parse "price_update" pong_frame = None
  ∧ arbitrageAlerts (store (onmessage json_parse Number_toString price_frame
                              connected_world))
    = arbitrageAlerts (store connected_world)
  ∧ priceUpdates (store (onmessage json_parse Number_toString pong_frame
                           connected_world))
    = priceUpdates (store connected_world).
Proof.
  assert (H1 : payload_of json_parse "arbitrage_alert" price_frame = None)
    by reflexivity.
  assert (H2 : payload_of json_parse "price_update" pong_frame = None)
    by reflexivity.
  split; [exact H1|]. split; [exact H2|]. split.
  - exact (proj1 (proj2 (onmessage_frame json_parse Number_toString price_frame
                           connected_world)) H1).
  - exact (proj1 (onmessage_frame json_parse Number_toString pong_frame
                    connected_world) H2).
Defined.

Lemma arbitrage_alert_notification_witness :
  payload_of json_parse "arbitrage_alert" alert_frame = Some alert_payload
  ∧ get alert_payload "profit_percent" = Ok (VNum (Fin (7 # 2)%Q))
  ∧ nlt (Fin 2%Q) (Fin (7 # 2)%Q) = true
  ∧ ∃ token_symbol,
      get alert_payload "token_symbol" = Ok token_symbol
      ∧ toasts (onmessage json_parse Number_toString alert_frame connected_world)
        = toasts connected_world
          ++ [Toast_new_arbitrage token_symbol (Fin (7 # 2)%Q)].
Proof.
  assert (H : payload_of json_parse "arbitrage_alert" alert_frame
              = Some alert_payload) by reflexivity.
  split; [exact H|]. split; [reflexivity|]. split; [reflexivity|].
  exact (proj1 (proj2 (proj1 (arbitrage_alert_notification json_parse
                                Number_toString alert_frame connected_world)
                         alert_payload H))
           (Fin (7 # 2)%Q) eq_refl eq_refl).
Defined.

Lemma reconnect_scheduling_witness :
  ws (store connected_world) = Some 0
  ∧ ws (store (disconnect connected_world)) = None
  ∧ connected (store (disconnect connected_world)) = false
  ∧ timers (disconnect connected_world) = timers connected_world.
Proof.
  assert (H : ws (store connected_world) = Some 0) by reflexivity.
  split; [exact H|].
  destruct (proj1 (reconnect_scheduling json_parse Number_toString
                     connected_world) 0 H) as (H1 & H2 & H3 & _).
  exact (conj H1 (conj H2 H3)).
Defined.

Lemma subscribe_needs_open_socket_witness :
  ws (store connected_world) = Some 0
  ∧ is_open 0 connected_world = true
  ∧ sent_on 0 (subscribe ["prices"] connected_world)
    = (λ l, l ++ [Subscribe ["prices"]]) <$> sent_on 0 connected_world.
Proof.
  assert (H1 : ws (store connected_world) = Some 0) by reflexivity.
  assert (H2 : is_open 0 connected_world = true) by reflexivity.
  split; [exact H1|]. split; [exact H2|].
  destruct (proj1 (subscribe_needs_open_socket json_parse Number_toString
                     ["prices"] connected_world) 0 H1 H2) as [(_ & _ & H) _].
  exact H.
Defined.

Lemma yield_rollups_witness :
  Forall (λ r, is_yield_record r = true)
    [yield_record "A" (VNum (of_Z 100)) 10; yield_record "A" (VNum (of_Z 300)) 20]
  ∧ Forall (λ r, own_names Number_toString r = true)
      [yield_record "A" (VNum (of_Z 100)) 10;
       yield_record "A" (VNum (of_Z 300)) 20]
  ∧ ∃ st,
      useYieldData_stats Number_toString
        (Some [yield_record "A" (VNum (of_Z 100)) 10;
               yield_record "A" (VNum (of_Z 300)) 20]) = Ok st
      ∧ Stats.byProtocol st !! "A"
        = Some {| Group.count := 2; Group.totalTvl := Fin 400%Q;
                  Group.avgApy := VNum (Fin 15%Q) |}.
Proof.
  assert (H : Forall (λ r, is_yield_record r = true)
                [yield_record "A" (VNum (of_Z 100)) 10;
                 yield_record "A" (VNum (of_Z 300)) 20]) by (repeat constructor).
  assert (Hn : Forall (λ r, own_names Number_toString r = true)
                 [yield_record "A" (VNum (of_Z 100)) 10;
                  yield_record "A" (VNum (of_Z 300)) 20])
    by (repeat constructor).
  split; [exact H|]. split; [exact Hn|].
  exact (proj2 (yield_rollups Number_toString _ H Hn)).
Defined.

Lemma malformed_tvl_poisons_totals_witness :
  Forall (λ r, is_yield_record r = true) [malformed_record; sound_record]
  ∧ Forall (λ r, own_names Number_toString r = true)
      [malformed_record; sound_record]
  ∧ malformed_record ∈ [malformed_record; sound_record]
  ∧ is_nan (tvl_of Number_toString malformed_record) = true
  ∧ ∃ st,
      useYieldData_stats Number_toString (Some [malformed_record; sound_record])
      = Ok st
      ∧ Stats.count st = 2
      ∧ Stats.totalTvl st = NaN.
Proof.
  assert (H1 : Forall (λ r, is_yield_record r = true)
                 [malformed_record; sound_record]) by (repeat constructor).
  assert (Hn : Forall (λ r, own_names Number_toString r = true)
                 [malformed_record; sound_record]) by (repeat constructor).
  assert (H2 : malformed_record ∈ [malformed_record; sound_record])
    by (apply list_elem_of_here).
  assert (H3 : is_nan (tvl_of Number_toString malformed_record) = true)
    by reflexivity.
  split; [exact H1|]. split; [exact Hn|]. split; [exact H2|]. split; [exact H3|].
  destruct (malformed_tvl_poisons_totals Number_toString _ _ H1 Hn H2 H3)
    as (st & Hst & Hcount & Htvl & _).
  exists st. exact (conj Hst (conj Hcount Htvl)).
Defined.

(** * Where the program departs from the specification *)

(** C2 does not hold as stated.  After an explicit [disconnect] the close
    event of the socket schedules the reconnect all the same; and a
    [disconnect] made while a reconnect is pending does not cancel it: the
    timer fires and a second socket is opened. *)
Lemma disconnect_does_not_stop_reconnect :
  timers (run json_parse Number_toString
            [Call_connect; Ws_open 0; Call_disconnect; Ws_close 0]
            initial_world)
  = [Reconnect 5000]
  ∧ timers (run json_parse Number_toString
              [Call_connect; Ws_open 0; Ws_close 0; Call_disconnect]
              initial_world)
    = [Reconnect 5000]
  ∧ sockets (run json_parse Number_toString
               [Call_connect; Ws_open 0; Ws_close 0; Call_disconnect;
                Timer_fires 0]
               initial_world)
    = [{| readyState := CLOSED; sent := [] |};
       {| readyState := CONNECTING; sent := [] |}].
Proof. split_and!; reflexivity. Qed.

(** C3 does not hold as stated.  A [subscribe] made while disconnected
    leaves the registry empty, and nothing is sent once the connection is
    open. *)
Lemma subscribe_before_connect_is_lost :
  subscriptions (store (subscribe ["prices"] initial_world)) = []
  ∧ (let w := run json_parse Number_toString
                [Call_subscribe ["prices"]; Call_connect; Ws_open 0]
                initial_world in
     connected (store w) = true
     ∧ subscriptions (store w) = []
     ∧ sockets w = [{| readyState := OPEN; sent := [] |}]).
Proof. cbv zeta. split_and!; reflexivity. Qed.

(** C5 does not hold as stated.  With the malformed record the statistics
    are not those of the sound record alone: the count is 2, the mean APY
    is 15 instead of 20, and the total TVL is NaN instead of 100. *)
Lemma malformed_record_is_aggregated :
  useYieldData_stats Number_toString (Some [malformed_record; sound_record])
  = Ok {| Stats.count := 2; Stats.avgApy := Fin 15%Q; Stats.maxApy := Fin 20%Q;
          Stats.totalTvl := NaN;
          Stats.byProtocol :=
            {[ "A" := {| Group.count := 2; Group.totalTvl := NaN;
                         Group.avgApy := VNum (Fin 15%Q) |} ]};
          Stats.byChain :=
            {[ "undefined" := {| Group.count := 2; Group.totalTvl := NaN;
                                 Group.avgApy := VNum (Fin 15%Q) |} ]} |}
  ∧ useYieldData_stats Number_toString (Some [sound_record])
    = Ok {| Stats.count := 1; Stats.avgApy := Fin 20%Q; Stats.maxApy := Fin 20%Q;
            Stats.totalTvl := Fin 100%Q;
            Stats.byProtocol :=
              {[ "A" := {| Group.count := 1; Group.totalTvl := Fin 100%Q;
                           Group.avgApy := VNum (Fin 20%Q) |} ]};
            Stats.byChain :=
              {[ "undefined" := {| Group.count := 1; Group.totalTvl := Fin 100%Q;
                                   Group.avgApy := VNum (Fin 20%Q) |} ]} |}.
Proof. split; vm_compute; reflexivity. Qed.

(** C7 does not hold as stated.  The [apy] of a record is added as it
    arrived and never parsed: where it arrives as decimal text the sums are
    concatenations, and the mean APY of the two records of the example comes
    out as "01020" / 2 = 510 rather than 15, in the whole and in the
    groups. *)
Lemma text_apy_is_concatenated :
  useYieldData_stats Number_toString
    (Some [text_apy_record "A" (VNum (of_Z 100)) "10";
           text_apy_record "A" (VNum (of_Z 300)) "20"])
  = Ok {| Stats.count := 2; Stats.avgApy := Fin 510%Q; Stats.maxApy := Fin 20%Q;
          Stats.totalTvl := Fin 400%Q;
          Stats.byProtocol :=
            {[ "A" := {| Group.count := 2; Group.totalTvl := Fin 400%Q;
                         Group.avgApy := VNum (Fin 510%Q) |} ]};
          Stats.byChain :=
            {[ "undefined" := {| Group.count := 2; Group.totalTvl := Fin 400%Q;
                                 Group.avgApy := VNum (Fin 510%Q) |} ]} |}.
Proof. vm_compute; reflexivity. Qed.

(** A record whose protocol name is the name of an inherited member gets no
    group: the rollup by protocol holds the other record only. *)
Lemma inherited_name_gets_no_group :
  ∃ st,
    useYieldData_stats Number_toString
      (Some [yield_record "constructor" (VNum (of_Z 100)) 10;
             yield_record "A" (VNum (of_Z 300)) 20]) = Ok st
    ∧ Stats.count st = 2
    ∧ Stats.byProtocol st
      = {[ "A" := {| Group.count := 1; Group.totalTvl := Fin 300%Q;
                     Group.avgApy := VNum (Fin 20%Q) |} ]}.
Proof. eexists. split; [vm_compute; reflexivity|]. split; reflexivity. Qed.

(** C8 does not hold as stated.  A [profit_percent] that arrives as the
    decimal text of 3.5 is above 2.0 for the test of the router, and the
    payload is stored; but the text has no [toFixed], the TypeError is
    caught with everything else, and no toast is raised. *)
Lemma text_profit_raises_no_toast :
  payload_of json_parse "arbitrage_alert" text_profit_frame
  = Some text_profit_payload
  ∧ get text_profit_payload "profit_percent" = Ok (VStr "3.5")
  ∧ js_gt_number Number_toString (VStr "3.5") (Fin 2%Q) = true
  ∧ arbitrageAlerts
      (store (onmessage json_parse Number_toString text_profit_frame
                connected_world))
    = [text_profit_payload]
  ∧ toasts (onmessage json_parse Number_toString text_profit_frame
              connected_world)
    = toasts connected_world.
Proof. split_and!; vm_compute; reflexivity. Qed.

(** C10.  The two merges differ.  A frame can leave a text that is not JSON
    in the alert buffer; on that buffer the hook drops the entry and returns
    the empty list, while the panel throws the SyntaxError of [JSON.parse].
    They differ as well on an entry that is [undefined] (an alert frame
    without [data]): the hook filters it out, the panel keeps it. *)
Theorem panel_throws_where_hook_drops :
  arbitrageAlerts
    (store (onmessage json_parse Number_toString garbled_alert_frame
              connected_world))
  = [VStr "not json"]
  ∧ useArbitrage_opportunities json_parse Number_toString
      [VStr "not json"] (Some [])
    = Ok []
  ∧ ArbitragePanel_allOpportunities json_parse Number_toString
      [VStr "not json"] (Some [])
    = Throw SyntaxError
  ∧ useArbitrage_opportunities json_parse Number_toString [VUndefined] (Some [])
    = Ok []
  ∧ ArbitragePanel_allOpportunities json_parse Number_toString
      [VUndefined] (Some [])
    = Ok [VUndefined].
Proof. split_and!; reflexivity. Qed.

(** * The further properties at concrete inputs *)

Lemma registry_and_buffers_outlive_connections_witness :
  subscriptions
    (store (step json_parse Number_toString Call_disconnect connected_world))
  = subscriptions (store connected_world).
Proof.
  apply (proj1 (registry_and_buffers_outlive_connections
                  json_parse Number_toString Call_disconnect connected_world));
    intros channels; discriminate.
Defined.

Lemma socket_life_cycle_witness :
  sockets connected_world !! 0 = Some {| readyState := OPEN; sent := [] |}
  ∧ ∃ s',
      sockets (step json_parse Number_toString Call_sendPing connected_world) !! 0
      = Some s'
      ∧ stage OPEN ≤ stage (readyState s')
      ∧ [] `prefix_of` sent s'
      ∧ (sent s' ≠ [] → readyState s' = OPEN).
Proof.
  assert (H : sockets connected_world !! 0
              = Some {| readyState := OPEN; sent := [] |}) by reflexivity.
  split; [exact H|].
  exact (socket_life_cycle json_parse Number_toString Call_sendPing
           connected_world 0 _ H).
Defined.

Lemma subscribe_twice_witness :
  ws (store connected_world) = Some 0
  ∧ is_open 0 connected_world = true
  ∧ subscriptions
      (store (subscribe ["prices"] (subscribe ["prices"] connected_world)))
    = subscriptions (store (subscribe ["prices"] connected_world))
  ∧ sent_on 0 (subscribe ["prices"] (subscribe ["prices"] connected_world))
    = (λ l, l ++ [Subscribe ["prices"]; Subscribe ["prices"]])
      <$> sent_on 0 connected_world.
Proof.
  assert (H1 : ws (store connected_world) = Some 0) by reflexivity.
  assert (H2 : is_open 0 connected_world = true) by reflexivity.
  split; [exact H1|]. split; [exact H2|].
  exact (subscribe_twice json_parse ["prices"] connected_world 0 H1 H2).
Defined.

Lemma useWebSocket_unmount_drops_channels_witness :
  ["prices"] ≠ []
  ∧ connected (store connected_world) = true
  ∧ ws (store connected_world) = Some 0
  ∧ is_open 0 connected_world = true
  ∧ sent_on 0 (useWebSocket_cleanup ["prices"]
                 (useWebSocket_effect ["prices"] connected_world))
    = (λ l, l ++ [Subscribe ["prices"]; Unsubscribe ["prices"]])
      <$> sent_on 0 connected_world.
Proof.
  assert (H0 : ["prices"] ≠ ([] : list string)) by discriminate.
  assert (H1 : connected (store connected_world) = true) by reflexivity.
  assert (H2 : ws (store connected_world) = Some 0) by reflexivity.
  assert (H3 : is_open 0 connected_world = true) by reflexivity.
  split; [exact H0|]. split; [exact H1|]. split; [exact H2|]. split; [exact H3|].
  exact (proj2 (useWebSocket_unmount_drops_channels json_parse ["prices"]
                  connected_world 0 H0 H1 H2 H3)).
Defined.

Lemma useWebSocket_rerun_witness :
  ["prices"] ≠ []
  ∧ connected (store connected_world) = true
  ∧ ws (store connected_world) = Some 0
  ∧ is_open 0 connected_world = true
  ∧ sent_on 0 (useWebSocket_effect ["prices"]
                 (useWebSocket_cleanup ["prices"] connected_world))
    = (λ l, l ++ [Unsubscribe ["prices"]; Subscribe ["prices"]])
      <$> sent_on 0 connected_world.
Proof.
  assert (H0 : ["prices"] ≠ ([] : list string)) by discriminate.
  assert (H1 : connected (store connected_world) = true) by reflexivity.
  assert (H2 : ws (store connected_world) = Some 0) by reflexivity.
  assert (H3 : is_open 0 connected_world = true) by reflexivity.
  split; [exact H0|]. split; [exact H1|]. split; [exact H2|]. split; [exact H3|].
  exact (proj2 (useWebSocket_rerun json_parse ["prices"]
                  connected_world 0 H0 H1 H2 H3)).
Defined.

Lemma Dashboard_subscribes_again_on_reconnect_witness :
  ready_state 1 reconnecting_world = Some CONNECTING
  ∧ subscriptions (store reconnecting_world) ≠ []
  ∧ sent_on 1 (Dashboard_effect
                 (step json_parse Number_toString (Ws_open 1) reconnecting_world))
    = Some [Subscribe ["prices"]; Subscribe ["prices"; "arbitrage"; "yield"]].
Proof.
  assert (H1 : ready_state 1 reconnecting_world = Some CONNECTING) by reflexivity.
  assert (H2 : subscriptions (store reconnecting_world) ≠ []) by discriminate.
  split; [exact H1|]. split; [exact H2|].
  exact (proj2 (Dashboard_subscribes_again_on_reconnect
                  json_parse Number_toString reconnecting_world 1 H1 H2)).
Defined.

Lemma panel_shows_the_five_best_witness :
  Forall (λ a, is_record Number_toString (decode_alert json_parse a) = true)
    [opportunity 1 5]
  ∧ Forall (λ r, is_record Number_toString r = true)
      [opportunity 1 1; opportunity 2 9]
  ∧ ∃ all,
      ArbitragePanel_allOpportunities json_parse Number_toString
        [opportunity 1 5] (Some [opportunity 1 1; opportunity 2 9]) = Ok all
      ∧ displayOpportunities true all = all
      ∧ length (displayOpportunities false all) = min 5 (length all).
Proof.
  assert (H1 : Forall (λ a, is_record Number_toString (decode_alert json_parse a)
                            = true) [opportunity 1 5]) by (repeat constructor).
  assert (H2 : Forall (λ r, is_record Number_toString r = true)
                 [opportunity 1 1; opportunity 2 9]) by (repeat constructor).
  split; [exact H1|]. split; [exact H2|].
  destruct (panel_shows_the_five_best json_parse Number_toString _ _ H1 H2)
    as (all & Ha & Hf & Hl & _).
  exists all. exact (conj Ha (conj Hf Hl)).
Defined.

Lemma stats_of_merged_opportunities_witness :
  Forall (λ a, stream_ok json_parse Number_toString a = true) [opportunity 1 5]
  ∧ Forall (λ r, is_record Number_toString r = true)
      [opportunity 1 1; opportunity 2 9]
  ∧ ∃ opportunities stats,
      useArbitrage_opportunities json_parse Number_toString
        [opportunity 1 5] (Some [opportunity 1 1; opportunity 2 9])
      = Ok opportunities
      ∧ useArbitrage_stats Number_toString opportunities = Ok stats
      ∧ ArbStats.count stats = length opportunities.
Proof.
  assert (H1 : Forall (λ a, stream_ok json_parse Number_toString a = true)
                 [opportunity 1 5]) by (repeat constructor).
  assert (H2 : Forall (λ r, is_record Number_toString r = true)
                 [opportunity 1 1; opportunity 2 9]) by (repeat constructor).
  split; [exact H1|]. split; [exact H2|].
  destruct (stats_of_merged_opportunities json_parse Number_toString _ _ H1 H2)
    as (opportunities & stats & Ho & Hs & Hc & _).
  exists opportunities, stats. exact (conj Ho (conj Hs Hc)).
Defined.

Lemma unreadable_volume_poisons_total_witness :
  Forall (λ r, is_record Number_toString r = true) [opportunity 1 5]
  ∧ opportunity 1 5 ∈ [opportunity 1 5]
  ∧ is_nan (parseFloat Number_toString
              (field "volume_available" (opportunity 1 5))) = true
  ∧ ∃ stats,
      useArbitrage_stats Number_toString [opportunity 1 5] = Ok stats
      ∧ ArbStats.count stats = 1
      ∧ ArbStats.totalVolume stats = NaN.
Proof.
  assert (H1 : Forall (λ r, is_record Number_toString r = true)
                 [opportunity 1 5]) by (repeat constructor).
  assert (H2 : opportunity 1 5 ∈ [opportunity 1 5]) by constructor.
  assert (H3 : is_nan (parseFloat Number_toString
                         (field "volume_available" (opportunity 1 5))) = true)
    by reflexivity.
  split; [exact H1|]. split; [exact H2|]. split; [exact H3|].
  exact (unreadable_volume_poisons_total Number_toString _ _ H1 H2 H3).
Defined.

Lemma toasted_alert_in_header_and_panel_witness :
  payload_of json_parse "arbitrage_alert" alert_frame = Some alert_payload
  ∧ toasts (onmessage json_parse Number_toString alert_frame connected_world)
    ≠ toasts connected_world
  ∧ ∃ token_symbol n,
      toasts (onmessage json_parse Number_toString alert_frame connected_world)
      = toasts connected_world ++ [Toast_new_arbitrage token_symbol n]
      ∧ Header_notification json_parse alert_payload = Ok (token_symbol, VNum n)
      ∧ getProfitLevel Number_toString (field "profit_percent" alert_payload)
        = "high".
Proof.
  assert (H1 : payload_of json_parse "arbitrage_alert" alert_frame
               = Some alert_payload) by reflexivity.
  assert (H2 : toasts (onmessage json_parse Number_toString alert_frame
                         connected_world) ≠ toasts connected_world)
    by (vm_compute; discriminate).
  split; [exact H1|]. split; [exact H2|].
  exact (toasted_alert_in_header_and_panel json_parse Number_toString
           alert_frame connected_world alert_payload H1 H2).
Defined.

Lemma levels_of_missing_scores_witness :
  is_nan (to_number Number_toString VUndefined) = true
  ∧ getProfitLevel Number_toString VUndefined = "low"
  ∧ getRiskLevel Number_toString VUndefined = "high".
Proof.
  assert (H : is_nan (to_number Number_toString VUndefined) = true)
    by reflexivity.
  split; [exact H|].
  exact (levels_of_missing_scores Number_toString VUndefined H).
Defined.

Lemma Header_throws_where_hook_drops_witness :
  0 < 5
  ∧ [VStr "not json"] !! 0 = Some (VStr "not json")
  ∧ decode_alert json_parse (VStr "not json") = VNull
  ∧ ∃ e, Header_notifications json_parse [VStr "not json"] = Throw e.
Proof.
  assert (H1 : 0 < 5) by lia.
  assert (H2 : [VStr "not json"] !! 0 = Some (VStr "not json")) by reflexivity.
  assert (H3 : decode_alert json_parse (VStr "not json") = VNull)
    by reflexivity.
  split; [exact H1|]. split; [exact H2|]. split; [exact H3|].
  exact (proj2 (Header_throws_where_hook_drops json_parse
                  [VStr "not json"] 0 (VStr "not json") H1 H2 H3)).
Defined.

Lemma chart_ignores_decoded_payloads_witness :
  payload_of json_parse "price_update" price_frame = Some price_payload
  ∧ (∀ text, price_payload ≠ VStr text)
  ∧ PriceChart_live_update json_parse Number_toString (λ _, NaN) "BTC/USDT"
      (priceUpdates (store (onmessage json_parse Number_toString price_frame
                              connected_world)))
      empty_chart
    = empty_chart.
Proof.
  assert (H1 : payload_of json_parse "price_update" price_frame
               = Some price_payload) by reflexivity.
  assert (H2 : ∀ text, price_payload ≠ VStr text) by (intros text; discriminate).
  split; [exact H1|]. split; [exact H2|].
  exact (proj2 (chart_ignores_decoded_payloads json_parse Number_toString
                  (λ _, NaN) "BTC/USDT" price_frame connected_world
                  price_payload empty_chart H1 H2)).
Defined.
